(** * k8s-portforward-conn: a port-forward session exposed as a net.Conn

    Shallow embedding of the package [k8sport]:
    - [Forwarder] and [Forwarder.Forward] (forwarder.go and the file that
      defines [Forward]),
    - the adapter [FwdConn] with [watchErr], [Read], [Write], [Close],
      [LocalAddr], [RemoteAddr] and the three deadline setters,
    - [FwdConn.HTTPTransport] (conn_convenience.go).

    The SPDY session ([httpstream.Connection]), its streams and the dialer are
    interfaces implemented outside the package.  Every call the package makes
    on them is recorded as an [Event]; what they answer is an argument of the
    embedded function.  The goroutine [watchErr] and the unbuffered channel
    [errch] are a small state machine, [Chan], stepped by the operations of the
    adapter and by the environment. *)

From Stdlib Require Import ZArith Lia List Sorted String Ascii DecimalString.
From Stdlib Require Import DecimalPos DecimalZ.
From stdpp Require Import gmap strings list.
Import ListNotations.

#[local] Set Warnings "-register-all".
Local Open Scope string_scope.
Local Open Scope Z_scope.
Local Open Scope list_scope.

(** ** Go values *)

(** Go's [error] values.  [fmt.Errorf] with [%w] keeps the wrapped error, with
    [%s] only text; [errors.Join] keeps the list of joined errors. *)
Inductive error : Type :=
| ErrOpaque (msg : string)
| ErrWrap (prefix : string) (e : error)
| ErrText (prefix : string) (text : string)
| ErrJoin (es : list error).

(** An [error] interface value: [None] is [nil]. *)
Definition goerror : Type := option error.

(** [errors.Join(errs...)]: nil values are dropped, and the result is nil when
    nothing is left. *)
Definition Join (errs : list goerror) : goerror :=
  match omap id errs with
  | [] => None
  | es => Some (ErrJoin es)
  end.

(** A fallible call [(v, err)]. *)
Inductive result (A : Type) : Type :=
| Ok (a : A)
| Err (e : error).
Arguments Ok {A} a.
Arguments Err {A} e.

(** [atomic.Int32]: a signed 32-bit counter, [Add] wraps around. *)
Definition MaxInt32 : Z := 2147483647.
Definition MinInt32 : Z := -2147483648.
Definition wrap32 (z : Z) : Z := (z + 2 ^ 31) mod 2 ^ 32 - 2 ^ 31.
Definition Int32_Add (v delta : Z) : Z := wrap32 (v + delta).

(** [strconv.Itoa]. *)
Definition Itoa (z : Z) : string := NilZero.string_of_int (Z.to_int z).

(** [time.Duration] is an int64 count of nanoseconds; [time.Time] is an
    instant, here its count of nanoseconds on the clock that [time.Until]
    reads.  [time.Until(t)] is [t] minus the clock reading, saturated to the
    range of [Duration]. *)
Definition maxDuration : Z := 2 ^ 63 - 1.
Definition minDuration : Z := - 2 ^ 63.
Definition Until (now t : Z) : Z :=
  if t - now <? minDuration then minDuration
  else if maxDuration <? t - now then maxDuration
  else t - now.

(** ** http.Header *)

Definition is_lower (c : ascii) : bool :=
  ((97 <=? nat_of_ascii c) && (nat_of_ascii c <=? 122))%nat.
Definition is_upper (c : ascii) : bool :=
  ((65 <=? nat_of_ascii c) && (nat_of_ascii c <=? 90))%nat.
Definition is_digit (c : ascii) : bool :=
  ((48 <=? nat_of_ascii c) && (nat_of_ascii c <=? 57))%nat.

(** [textproto.validHeaderFieldByte]: the token characters of RFC 7230. *)
Definition validHeaderFieldByte (c : ascii) : bool :=
  is_lower c || is_upper c || is_digit c ||
  existsb (Ascii.eqb c) (list_ascii_of_string "!#$%&'*+-.^_`|~").

(** The rewriting loop of [textproto.canonicalMIMEHeaderKey]: upper case at the
    start and after a dash, lower case elsewhere. *)
Fixpoint canon_loop (upper : bool) (s : string) : string :=
  match s with
  | EmptyString => EmptyString
  | String c s' =>
      let c' :=
        if upper && is_lower c then ascii_of_nat (nat_of_ascii c - 32)
        else if negb upper && is_upper c then ascii_of_nat (nat_of_ascii c + 32)
        else c in
      String c' (canon_loop (Ascii.eqb c' "-"%char) s')
  end.

(** [textproto.CanonicalMIMEHeaderKey]: a key with a byte outside the token
    characters is returned as it is. *)
Definition CanonicalMIMEHeaderKey (s : string) : string :=
  if forallb validHeaderFieldByte (list_ascii_of_string s)
  then canon_loop true s else s.

Abbreviation Header := (gmap string (list string)).

Definition Header_Set (h : Header) (key value : string) : Header :=
  <[CanonicalMIMEHeaderKey key := [value]]> h.

Definition Header_Get (h : Header) (key : string) : string :=
  match h !! CanonicalMIMEHeaderKey key with
  | Some (v :: _) => v
  | _ => ""
  end.

(** Constants of [k8s.io/api/core/v1]. *)
Definition StreamType : string := "streamType".
Definition StreamTypeData : string := "data".
Definition StreamTypeError : string := "error".
Definition PortHeader : string := "port".
Definition PortForwardRequestIDHeader : string := "requestID".

(** ** The session manager *)

(** [v1.Pod], as far as the package reads it. *)
Record Pod := { Namespace : string; Name : string }.

(** Identities of the objects handed out by the SPDY layer. *)
Abbreviation ConnId := nat.
Abbreviation StreamId := nat.

(** [FwdConn].  The field [errch] is the channel made in [Forward]; its state,
    together with the goroutine that sends on it, is the [Chan] threaded through
    the operations below. *)
Record FwdConn := {
  fwd : ConnId;
  data : StreamId;
  err : StreamId;
  port : string;
  pod : Pod
}.

(** What the package does to its collaborators, in program order. *)
Inductive Event : Type :=
| EvDial (namespace name : string)
| EvCreateStream (c : ConnId) (headers : Header)
| EvStreamClose (s : StreamId)
| EvStreamRead (s : StreamId) (len : nat)
| EvStreamWrite (s : StreamId) (b : string)
| EvRemoveStreams (c : ConnId) (ss : list StreamId)
| EvConnClose (c : ConnId)
| EvSetIdleTimeout (c : ConnId) (timeout : Z)
| EvGoWatchErr (fc : FwdConn)
| EvReqIDAdd (v : Z)
| EvRecv (e : goerror).

(** [Forwarder]: [kc], [transport] and [upgrader] are handles of the dialer,
    whose answer is [dial] below; [reqID] is the counter. *)
Record Forwarder := { reqID : Z }.

(** The answers of the collaborators during one call of [Forward]. *)
Record ForwardEnv := {
  dial : result ConnId;
  createErr : result StreamId;
  createData : result StreamId
}.

(** State (the forwarder), log and early return on error. *)
Definition M (A : Type) : Type :=
  Forwarder -> list Event -> result A * Forwarder * list Event.

Definition ret {A} (a : A) : M A := fun fw log => (Ok a, fw, log).

Definition bind {A B} (m : M A) (k : A -> M B) : M B :=
  fun fw log =>
    match m fw log with
    | (Ok a, fw', log') => k a fw' log'
    | (Err e, fw', log') => (Err e, fw', log')
    end.

Notation "'let*' x ':=' m 'in' k" := (bind m (fun x => k))
  (at level 10, x name, m at level 100, k at level 200).

(** A call on a collaborator and its answer. *)
Definition call {A} (ev : Event) (answer : result A) : M A :=
  fun fw log => (answer, fw, log ++ [ev]).

(** [if err != nil { return nil, fmt.Errorf(prefix + ": %w", err) }]. *)
Definition orErrorf {A} (prefix : string) (m : M A) : M A :=
  fun fw log =>
    match m fw log with
    | (Err e, fw', log') => (Err (ErrWrap prefix e), fw', log')
    | r => r
    end.

(** [fw.reqID.Add(delta)]. *)
Definition reqID_Add (delta : Z) : M Z :=
  fun fw log =>
    let v := Int32_Add (reqID fw) delta in
    (Ok v, {| reqID := v |}, log ++ [EvReqIDAdd v]).

(** [Forwarder.Forward]. *)
Definition Forward (env : ForwardEnv) (pod : Pod) (port : string) : M FwdConn :=
  let* conn := orErrorf "error dialing for stream"
                 (call (EvDial (Namespace pod) (Name pod)) (dial env)) in
  let headers : Header := Header_Set ∅ StreamType StreamTypeError in
  let headers := Header_Set headers PortHeader port in
  let* next := reqID_Add 1 in
  let headers := Header_Set headers PortForwardRequestIDHeader (Itoa next) in
  let* errorStream := orErrorf "error creating err stream"
                        (call (EvCreateStream conn headers) (createErr env)) in
  let* _ := call (EvStreamClose errorStream) (Ok tt) in
  let headers := Header_Set headers StreamType StreamTypeData in
  let* dataStream := orErrorf "error creating data stream"
                       (call (EvCreateStream conn headers) (createData env)) in
  let fc := {| fwd := conn; port := port; err := errorStream;
               data := dataStream; pod := pod |} in
  let* _ := call (EvGoWatchErr fc) (Ok tt) in
  ret fc.

(** The request identifiers allocated in a log, in the order of the [Add]s. *)
Definition allocated (log : list Event) : list Z :=
  omap (fun ev => match ev with EvReqIDAdd v => Some v | _ => None end) log.

(** Calls of [Forward] on one forwarder, taken in the order in which their
    [reqID.Add] take effect. *)
Fixpoint forwards (calls : list (ForwardEnv * Pod * string)) (fw : Forwarder)
    (log : list Event) : Forwarder * list Event :=
  match calls with
  | [] => (fw, log)
  | (env, pod, port) :: rest =>
      let '(_, fw', log') := Forward env pod port fw log in
      forwards rest fw' log'
  end.

(** [NewForwarder] leaves the counter at its zero value. *)
Definition NewForwarder : Forwarder := {| reqID := 0 |}.

(** ** The connection adapter *)

Definition networkName : string := "port-forward".

(** [fwdAddr]. *)
Record fwdAddr := { addr : string }.
Definition fwdAddr_Network (_ : fwdAddr) : string := networkName.
Definition fwdAddr_String (a : fwdAddr) : string := addr a.

Definition LocalAddr (f : FwdConn) : fwdAddr :=
  {| addr := (networkName ++ ":" ++ port f)%string |}.

Definition RemoteAddr (f : FwdConn) : fwdAddr :=
  {| addr := ("k8s/" ++ Namespace (pod f) ++ "/" ++ Name (pod f) ++ ":"
              ++ port f)%string |}.

(** *** The goroutine [watchErr] and the channel [errch]

    [errch] is unbuffered: a value is in it exactly while the watcher is parked
    in one of its two [select]s, offering the value; a receive takes the value
    and lets the watcher go on.  The receives of [Read], [Write] and [Close]
    have a [default] case, so no receiver ever waits.  Between two blocking
    points the watcher is taken to run at once: after a receive it is at its
    next [select], or has returned, before the next operation. *)
Inductive Watcher : Type :=
| WReadAll                                 (* in [io.ReadAll(f.err)] *)
| WSelectRead (e : error) (bs : string)    (* first [select], sending [e] *)
| WSelectBody (e : error)                  (* second [select], sending [e] *)
| WReturned.

(** The channel with its sender, and whether [ctx.Done()] is closed. *)
Record Chan := { watcher : Watcher; ctxDone : bool }.

(** [watchErr] from [if len(bs) > 0] on. *)
Definition watchErr_body (bs : string) : Watcher :=
  if (0 <? String.length bs)%nat
  then WSelectBody (ErrText "error returned from apiserver" bs)
  else WReturned.

(** [watchErr] from the return of [io.ReadAll] on. *)
Definition watchErr_read (bs : string) (err : goerror) : Watcher :=
  match err with
  | Some e => WSelectRead (ErrWrap "error while reading error stream" e) bs
  | None => watchErr_body bs
  end.

(** The [select] the watcher is parked in is over (either case). *)
Definition watchErr_resume (w : Watcher) : Watcher :=
  match w with
  | WSelectRead _ bs => watchErr_body bs
  | WSelectBody _ => WReturned
  | w => w
  end.

(** With [ctx.Done()] closed and no receiver waiting, every [select] takes the
    [Done] case: the watcher runs through both. *)
Definition watchErr_done (w : Watcher) : Watcher :=
  watchErr_resume (watchErr_resume w).

(** The environment: [io.ReadAll(f.err)] returns [(bs, err)].  Only a watcher
    that is in [io.ReadAll] takes the step. *)
Definition readAll_returns (bs : string) (err : goerror) (ch : Chan) : Chan :=
  match watcher ch with
  | WReadAll =>
      let w := watchErr_read bs err in
      {| watcher := if ctxDone ch then watchErr_done w else w;
         ctxDone := ctxDone ch |}
  | _ => ch
  end.

(** The environment: the context is cancelled. *)
Definition cancel (ch : Chan) : Chan :=
  {| watcher := watchErr_done (watcher ch); ctxDone := true |}.

(** [select { case err := <-f.errch: ...; default: }]: the value and the
    channel afterwards, or [None] for the [default] case. *)
Definition tryRecv (ch : Chan) : option (goerror * Chan) :=
  match watcher ch with
  | WSelectRead e _ | WSelectBody e =>
      Some (Some e, {| watcher := watchErr_resume (watcher ch);
                       ctxDone := ctxDone ch |})
  | _ => None
  end.

(** The error the channel holds. *)
Definition pending (ch : Chan) : option goerror := fst <$> tryRecv ch.

(** The channel right after [go fc.watchErr(ctx)]. *)
Definition spawned (done : bool) : Chan :=
  {| watcher := WReadAll; ctxDone := done |}.

(** *** The operations of [net.Conn]

    [ans] is what the data stream answers if it is called. *)
Definition Read (f : FwdConn) (b : nat) (ans : Z * goerror) (ch : Chan)
    : (Z * goerror) * Chan * list Event :=
  match tryRecv ch with
  | Some (e, ch') => ((0, e), ch', [EvRecv e])
  | None => (ans, ch, [EvStreamRead (data f) b])
  end.

Definition Write (f : FwdConn) (b : string) (ans : Z * goerror) (ch : Chan)
    : (Z * goerror) * Chan * list Event :=
  match tryRecv ch with
  | Some (e, ch') => ((0, e), ch', [EvRecv e])
  | None => (ans, ch, [EvStreamWrite (data f) b])
  end.

(** [if err != nil { errs = append(errs, err) }]. *)
Definition appendErr (errs : list goerror) (e : goerror) : list goerror :=
  match e with
  | Some _ => errs ++ [e]
  | None => errs
  end.

(** [dataClose] and [fwdClose] are the answers of [f.data.Close()] and
    [f.fwd.Close()]. *)
Definition Close (f : FwdConn) (dataClose fwdClose : goerror) (ch : Chan)
    : goerror * Chan * list Event :=
  let '(errs, ch', log) :=
    match tryRecv ch with
    | Some (e, ch') => (appendErr [] e, ch', [EvRecv e])
    | None => ([], ch, [])
    end in
  let log := log ++ [EvStreamClose (data f)] in
  let errs := appendErr errs dataClose in
  let log := log ++ [EvRemoveStreams (fwd f) [data f; err f]] in
  let log := log ++ [EvConnClose (fwd f)] in
  let errs := appendErr errs fwdClose in
  (Join errs, ch', log).

(** [now] is the reading of the clock inside [time.Until]. *)
Definition SetDeadline (f : FwdConn) (now t : Z) : goerror * list Event :=
  (None, [EvSetIdleTimeout (fwd f) (Until now t)]).

Definition SetReadDeadline (f : FwdConn) (now t : Z) : goerror * list Event :=
  (None, [EvSetIdleTimeout (fwd f) (Until now t)]).

Definition SetWriteDeadline (f : FwdConn) (now t : Z) : goerror * list Event :=
  (None, [EvSetIdleTimeout (fwd f) (Until now t)]).

(** *** conn_convenience.go *)

(** A [context.Context] as seen by [DialContext], which does not look at it. *)
Abbreviation Context := nat.

(** [http.Transport], as far as the package sets it. *)
Record Transport := {
  DialContext : Context -> string -> string -> FwdConn * goerror
}.

Definition HTTPTransport (f : FwdConn) : Transport :=
  {| DialContext := fun ctx network addr => (f, None) |}.

(** [http.Client]. *)
Record Client := { Transport_ : Transport }.

Definition HTTPClient (f : FwdConn) : Client :=
  {| Transport_ := HTTPTransport f |}.

(** ** Runs of an adapter

    The caller's operations and the steps of the environment, interleaved. *)
Inductive Op : Type :=
| OpRead (b : nat) (ans : Z * goerror)
| OpWrite (b : string) (ans : Z * goerror)
| OpClose (dataClose fwdClose : goerror)
| OpSetDeadline (now t : Z)
| OpSetReadDeadline (now t : Z)
| OpSetWriteDeadline (now t : Z)
| EnvReadAll (bs : string) (err : goerror)
| EnvCancel.

(** What a step returns to the caller. *)
Inductive Ret : Type :=
| RetIO (n : Z) (e : goerror)
| RetErr (e : goerror)
| RetEnv.

Definition step (f : FwdConn) (op : Op) (ch : Chan) : Ret * Chan * list Event :=
  match op with
  | OpRead b ans =>
      let '((n, e), ch', log) := Read f b ans ch in (RetIO n e, ch', log)
  | OpWrite b ans =>
      let '((n, e), ch', log) := Write f b ans ch in (RetIO n e, ch', log)
  | OpClose dataClose fwdClose =>
      let '(e, ch', log) := Close f dataClose fwdClose ch in (RetErr e, ch', log)
  | OpSetDeadline now t =>
      let '(e, log) := SetDeadline f now t in (RetErr e, ch, log)
  | OpSetReadDeadline now t =>
      let '(e, log) := SetReadDeadline f now t in (RetErr e, ch, log)
  | OpSetWriteDeadline now t =>
      let '(e, log) := SetWriteDeadline f now t in (RetErr e, ch, log)
  | EnvReadAll bs e => (RetEnv, readAll_returns bs e ch, [])
  | EnvCancel => (RetEnv, cancel ch, [])
  end.

Fixpoint run (f : FwdConn) (ops : list Op) (ch : Chan)
    : list Ret * Chan * list Event :=
  match ops with
  | [] => ([], ch, [])
  | op :: ops' =>
      let '(r, ch', log) := step f op ch in
      let '(rs, ch'', log') := run f ops' ch' in
      (r :: rs, ch'', log ++ log')
  end.

(** The errors received from [errch] in a log, in order. *)
Definition received (log : list Event) : list goerror :=
  omap (fun ev => match ev with EvRecv e => Some e | _ => None end) log.

(** The calls that reached stream [s]. *)
Definition reaches (s : StreamId) (ev : Event) : bool :=
  match ev with
  | EvStreamRead s' _ | EvStreamWrite s' _ => Nat.eqb s s'
  | _ => false
  end.

(** The values the watcher still offers, in order. *)
Definition offers (w : Watcher) : list goerror :=
  match w with
  | WSelectRead e bs => Some e :: match watchErr_body bs with
                                 | WSelectBody e' => [Some e']
                                 | _ => []
                                 end
  | WSelectBody e => [Some e]
  | _ => []
  end.

(** The idle timeout of session [c] after a log: the last one set. *)
Definition idleTimeout (c : ConnId) (log : list Event) : option Z :=
  last (omap (fun ev => match ev with
                        | EvSetIdleTimeout c' d =>
                            if Nat.eqb c c' then Some d else None
                        | _ => None
                        end) log).

(** ** Errors as trees *)

(** Equality of error values (Go compares the dynamic values; for the
    pointer-shaped errors of [fmt] that is their identity, which the
    structure stands for here). *)
Fixpoint error_eqb (a b : error) : bool :=
  match a, b with
  | ErrOpaque m, ErrOpaque m' => String.eqb m m'
  | ErrWrap p e, ErrWrap p' e' => String.eqb p p' && error_eqb e e'
  | ErrText p t, ErrText p' t' => String.eqb p p' && String.eqb t t'
  | ErrJoin es, ErrJoin es' =>
      (fix all2 (l l' : list error) : bool :=
         match l, l' with
         | [], [] => true
         | x :: l, y :: l' => error_eqb x y && all2 l l'
         | _, _ => false
         end) es es'
  | _, _ => false
  end.

(** [errors.Is(e, target)]: [e] is [target], or what [e] unwraps to (one error
    for [%w], a list for a join) is, depth first. *)
Fixpoint Is (e target : error) : bool :=
  error_eqb e target ||
  match e with
  | ErrWrap _ e' => Is e' target
  | ErrJoin es => existsb (fun x => Is x target) es
  | _ => false
  end.

(** ** forwarder.go: NewForwarder and the package-level Forward *)

Definition ErrRestConfigInvalid : error := ErrOpaque "rest config is invalid".

(** [fmt.Errorf("%w: %w", a, b)]: an error that unwraps to the list [a; b],
    as a join does.  Its text, the two texts around a colon, is not
    modelled. *)
Definition Errorf_w_w (a b : error) : error := ErrJoin [a; b].

(** What the rest config answers: the errors of [kubernetes.NewForConfig(rc)]
    and of [spdy.RoundTripperFor(rc)]. *)
Record ConfigEnv := { newForConfig : goerror; roundTripperFor : goerror }.

(** The calls of a traced run: the span of the tracer around the calls on the
    collaborators. *)
Inductive Traced : Type :=
| SpanStart (tracer name : string)
| SpanEnd
| Called (ev : Event).

Module k8sport.

(** [NewForwarder(rc)]. *)
Definition NewForwarder (cfg : ConfigEnv) : result Forwarder :=
  match newForConfig cfg with
  | Some e => Err (Errorf_w_w ErrRestConfigInvalid e)
  | None =>
      match roundTripperFor cfg with
      | Some e => Err (ErrWrap "error creating spdy roundtripper" e)
      | None => Ok {| reqID := 0 |}
      end
  end.

(** [Forward(ctx, rc, pod, port)], kept for backward compatibility: a new
    forwarder for each call. *)
Definition Forward (cfg : ConfigEnv) (env : ForwardEnv) (pod : Pod)
    (port : string) : result FwdConn * list Event :=
  match NewForwarder cfg with
  | Err e => (Err (ErrWrap "error creating forwarder" e), [])
  | Ok fwd =>
      match Forward env pod port fwd [] with
      | (Err e, _, log) => (Err (ErrWrap "error forwarding" e), log)
      | (Ok conn, _, log) => (Ok conn, log)
      end
  end.

End k8sport.

Module v0.

(** The first [Forward(ctx, rc, pod, port)], before [Forwarder] existed: the
    request identifier is the constant 1, and the work runs in a span. *)
Definition Forward (cfg : ConfigEnv) (env : ForwardEnv) (pod : Pod)
    (port : string) : result FwdConn * list Traced :=
  let body : result FwdConn * list Event :=
    match newForConfig cfg with
    | Some e => (Err (ErrWrap "error creating http client" e), [])
    | None =>
    match roundTripperFor cfg with
    | Some e => (Err (ErrWrap "error creating spdy roundtripper" e), [])
    | None =>
    let log := [EvDial (Namespace pod) (Name pod)] in
    match dial env with
    | Err e => (Err (ErrWrap "error dialing for stream" e), log)
    | Ok conn =>
    let headers : Header := Header_Set ∅ StreamType StreamTypeError in
    let headers := Header_Set headers PortHeader port in
    let headers := Header_Set headers PortForwardRequestIDHeader "1" in
    let log := log ++ [EvCreateStream conn headers] in
    match createErr env with
    | Err e => (Err (ErrWrap "error creating err stream" e), log)
    | Ok errorStream =>
    let log := log ++ [EvStreamClose errorStream] in
    let headers := Header_Set headers StreamType StreamTypeData in
    let log := log ++ [EvCreateStream conn headers] in
    match createData env with
    | Err e => (Err (ErrWrap "error creating data stream" e), log)
    | Ok dataStream =>
    let fc := {| fwd := conn; port := port; err := errorStream;
                 data := dataStream; pod := pod |} in
    (Ok fc, log ++ [EvGoWatchErr fc])
    end end end end end in
  (fst body,
   [SpanStart "vault.go" "portForward"] ++ map Called (snd body) ++ [SpanEnd]).

End v0.

(** The calls on the collaborators in a traced run. *)
Definition callsOf (tr : list Traced) : list Event :=
  omap (fun t => match t with Called ev => Some ev | _ => None end) tr.

(** A log without the steps of the counter. *)
Definition withoutReqID (log : list Event) : list Event :=
  omap (fun ev => match ev with EvReqIDAdd _ => None | _ => Some ev end) log.

(** ** The test helper waitForPodReady *)

(** [v1.ContainerStatus] and [v1.PodStatus], as far as the helper reads
    them; [v1.PodPhase] is a string. *)
Record ContainerStatus := { Ready : bool }.
Record PodStatus := { Phase : string; ContainerStatuses : list ContainerStatus }.

Definition PodRunning : string := "Running".
Definition PodSucceeded : string := "Succeeded".
Definition PodFailed : string := "Failed".

(** [time.Second] and the two constants of the helper, in nanoseconds. *)
Definition Second : Z := 1000000000.
Definition pollInterval : Z := 2 * Second.
Definition maxWait : Z := 2 * (60 * Second).

(** One turn of the loop as the environment answers it: the [Get] of the pod,
    [time.Since(startTime)] at the check, and, if [ctx.Done()] wins the
    [select] over [time.After(pollInterval)], the error [ctx.Err()]. *)
Record Poll := { get : result PodStatus; since : Z; ctxErr : goerror }.

(** The readiness computed inside [if pod.Status.Phase == corev1.PodRunning]. *)
Definition containersReady (statuses : list ContainerStatus) : bool :=
  let ready := true in
  let ready := if (length statuses =? 0)%nat then false else ready in
  let ready := if forallb Ready statuses then ready else false in
  ready.

(** [waitForPodReady]: the turns of the loop are taken from [polls]; [None]
    when they run out with the loop still polling. *)
Fixpoint waitForPodReady (ns podName : string) (polls : list Poll)
    : option goerror :=
  match polls with
  | [] => None
  | p :: polls' =>
      match get p with
      | Err e =>
          Some (Some (ErrWrap ("failed to get pod " ++ ns ++ "/" ++ podName) e))
      | Ok pod =>
          if String.eqb (Phase pod) PodRunning
             && containersReady (ContainerStatuses pod)
          then Some None
          else if String.eqb (Phase pod) PodFailed
                  || String.eqb (Phase pod) PodSucceeded
          then Some (Some (ErrOpaque ("pod " ++ ns ++ "/" ++ podName
                                      ++ " entered terminal phase "
                                      ++ Phase pod ++ " unexpectedly")))
          else if maxWait <? since p
          then Some (Some (ErrOpaque ("timeout waiting for pod " ++ ns ++ "/"
                                      ++ podName ++ " to become ready")))
          else match ctxErr p with
               | Some e =>
                   Some (Some (ErrWrap ("context cancelled while waiting for pod "
                                        ++ ns ++ "/" ++ podName) e))
               | None => waitForPodReady ns podName polls'
               end
      end
  end.

(** ** Statements about runs *)

(** What an operation does when [errch] holds nothing: it goes to the data
    stream, or tears down, and returns the answers. *)
Definition passthrough (f : FwdConn) (op : Op) : Ret * list Event :=
  match op with
  | OpRead b (n, e) => (RetIO n e, [EvStreamRead (data f) b])
  | OpWrite b (n, e) => (RetIO n e, [EvStreamWrite (data f) b])
  | OpClose dataClose fwdClose =>
      (RetErr (Join [dataClose; fwdClose]),
       [EvStreamClose (data f); EvRemoveStreams (fwd f) [data f; err f];
        EvConnClose (fwd f)])
  | OpSetDeadline now t | OpSetReadDeadline now t | OpSetWriteDeadline now t =>
      (RetErr None, [EvSetIdleTimeout (fwd f) (Until now t)])
  | EnvReadAll _ _ | EnvCancel => (RetEnv, [])
  end.

(** The clock reading and the deadline of the last deadline setter called. *)
Fixpoint lastDeadline (ops : list Op) : option (Z * Z) :=
  match ops with
  | [] => None
  | op :: ops' =>
      match lastDeadline ops' with
      | Some d => Some d
      | None =>
          match op with
          | OpSetDeadline now t | OpSetReadDeadline now t
          | OpSetWriteDeadline now t => Some (now, t)
          | _ => None
          end
      end
  end.

(** * Properties *)

(** ** Deadlines *)

(** The idle timeout the claim under test describes: [t] minus the clock
    reading, but never below zero. *)
Definition clamped_timeout (now t : Z) : Z := Z.max 0 (t - now).

Lemma Until_in_range (now t : Z) :
  minDuration <= t - now <= maxDuration -> Until now t = t - now.
Proof.
  intros [Hlo Hhi]. unfold Until.
  destruct (Z.ltb_spec (t - now) minDuration); [lia|].
  destruct (Z.ltb_spec maxDuration (t - now)); [lia|reflexivity].
Qed.

Lemma Until_bounds (now t : Z) : minDuration <= Until now t <= maxDuration.
Proof.
  unfold Until.
  destruct (Z.ltb_spec (t - now) minDuration);
    [|destruct (Z.ltb_spec maxDuration (t - now))];
    unfold minDuration, maxDuration in *; lia.
Qed.

Lemma Until_past (now t : Z) : t < now -> Until now t < 0.
Proof.
  intros Hlt. pose proof (Until_bounds now t) as Hb. unfold Until in *.
  destruct (Z.ltb_spec (t - now) minDuration);
    [|destruct (Z.ltb_spec maxDuration (t - now))];
    unfold minDuration, maxDuration in *; lia.
Qed.

Lemma idleTimeout_last_set (c : ConnId) (log : list Event) (d : Z) :
  idleTimeout c (log ++ [EvSetIdleTimeout c d]) = Some d.
Proof.
  unfold idleTimeout. rewrite omap_app. simpl.
  rewrite Nat.eqb_refl. apply last_snoc.
Qed.

(** C2 (as stated, refuted): a deadline two seconds in the past sets an idle
    timeout of minus two seconds on the session, not zero. *)
Lemma SetDeadline_past_not_clamped :
  let f := {| fwd := 7%nat; data := 3%nat; err := 1%nat; port := "80";
              pod := {| Namespace := "default"; Name := "mypod" |} |} in
  let now := 5000000000 in
  let t := 3000000000 in
  idleTimeout (fwd f) (snd (SetDeadline f now t)) = Some (-2000000000) /\
  idleTimeout (fwd f) (snd (SetReadDeadline f now t)) = Some (-2000000000) /\
  idleTimeout (fwd f) (snd (SetWriteDeadline f now t)) = Some (-2000000000) /\
  clamped_timeout now t = 0.
Proof. repeat split. Qed.

(** C2 (amended): each of the three deadline setters makes one call,
    [SetIdleTimeout] on the session, with [time.Until(t)]: [t] minus the clock
    reading when that fits a [Duration], negative when [t] is in the past.  It
    calls no stream, and every adapter on the same session sees the timeout. *)
Theorem deadline_is_session_idle_timeout (f g : FwdConn) (now t : Z)
    (log : list Event) :
  fwd g = fwd f ->
  minDuration <= t - now <= maxDuration ->
  Forall (fun set : FwdConn -> Z -> Z -> goerror * list Event =>
            snd (set f now t) = [EvSetIdleTimeout (fwd f) (t - now)] /\
            idleTimeout (fwd g) (log ++ snd (set f now t)) = Some (t - now) /\
            (t < now -> idleTimeout (fwd g) (log ++ snd (set f now t))
                        <> Some (clamped_timeout now t)))
         [SetDeadline; SetReadDeadline; SetWriteDeadline].
Proof.
  intros Hg Hr.
  assert (Hone : forall set : FwdConn -> Z -> Z -> goerror * list Event,
             snd (set f now t) = [EvSetIdleTimeout (fwd f) (Until now t)] ->
             snd (set f now t) = [EvSetIdleTimeout (fwd f) (t - now)] /\
             idleTimeout (fwd g) (log ++ snd (set f now t)) = Some (t - now) /\
             (t < now -> idleTimeout (fwd g) (log ++ snd (set f now t))
                         <> Some (clamped_timeout now t))).
  { intros set Hset. rewrite Hset, (Until_in_range now t Hr), Hg.
    rewrite idleTimeout_last_set. split; [reflexivity|]. split; [reflexivity|].
    intros Hlt Heq. injection Heq as Heq. unfold clamped_timeout in Heq. lia. }
  repeat constructor; apply Hone; reflexivity.
Qed.

Lemma deadline_is_session_idle_timeout_witness :
  let f := {| fwd := 7%nat; data := 3%nat; err := 1%nat; port := "80";
              pod := {| Namespace := "default"; Name := "mypod" |} |} in
  let g := {| fwd := 7%nat; data := 5%nat; err := 4%nat; port := "443";
              pod := {| Namespace := "default"; Name := "mypod" |} |} in
  Forall (fun set : FwdConn -> Z -> Z -> goerror * list Event =>
            snd (set f 5000000000 3000000000)
            = [EvSetIdleTimeout (fwd f) (3000000000 - 5000000000)] /\
            idleTimeout (fwd g) ([] ++ snd (set f 5000000000 3000000000))
            = Some (3000000000 - 5000000000) /\
            (3000000000 < 5000000000 ->
             idleTimeout (fwd g) ([] ++ snd (set f 5000000000 3000000000))
             <> Some (clamped_timeout 5000000000 3000000000)))
         [SetDeadline; SetReadDeadline; SetWriteDeadline].
Proof.
  intros f g.
  apply (deadline_is_session_idle_timeout f g 5000000000 3000000000 []).
  - reflexivity.
  - unfold minDuration, maxDuration. lia.
Defined.

(** C10: the three deadline setters return a nil error for every adapter and
    every time, and a [Read] or [Write] that takes an error from [errch]
    returns that error with a byte count of 0. *)
Theorem deadlines_nil_poisoned_count_zero (f : FwdConn) :
  (forall now t : Z,
      fst (SetDeadline f now t) = None /\
      fst (SetReadDeadline f now t) = None /\
      fst (SetWriteDeadline f now t) = None) /\
  (forall (ch : Chan) (e : goerror) (ans : Z * goerror),
      pending ch = Some e ->
      (forall b : nat, fst (fst (Read f b ans ch)) = (0, e)) /\
      (forall b : string, fst (fst (Write f b ans ch)) = (0, e))).
Proof.
  split; [intros now t; repeat split|].
  intros ch e ans Hp. unfold pending in Hp. unfold Read, Write.
  destruct (tryRecv ch) as [[e' ch']|]; [|discriminate].
  injection Hp as ->. split; intros b; reflexivity.
Qed.

Lemma deadlines_nil_poisoned_count_zero_witness :
  let f := {| fwd := 7%nat; data := 3%nat; err := 1%nat; port := "80";
              pod := {| Namespace := "default"; Name := "mypod" |} |} in
  let e := Some (ErrText "error returned from apiserver" "refused") in
  let ch := {| watcher := watchErr_read "refused" None; ctxDone := false |} in
  pending ch = Some e /\
  fst (fst (Read f 16 (2, None) ch)) = (0, e) /\
  fst (fst (Write f "GET /" (5, None) ch)) = (0, e).
Proof.
  intros f e ch.
  pose proof (deadlines_nil_poisoned_count_zero f) as [_ H].
  destruct (H ch e (2, None) eq_refl) as [Hr _].
  destruct (H ch e (5, None) eq_refl) as [_ Hw].
  split; [reflexivity|]. split; [apply Hr|apply Hw].
Defined.

(** ** The convenience transport *)

(** C9: whatever context, network and address the HTTP transport dials, the
    dial function of [HTTPTransport f] returns the adapter [f] it was made
    from, with a nil error. *)
Theorem HTTPTransport_dials_same_conn (f : FwdConn) (ctx : Context)
    (network addr : string) :
  DialContext (HTTPTransport f) ctx network addr = (f, None) /\
  DialContext (Transport_ (HTTPClient f)) ctx network addr = (f, None).
Proof. split; reflexivity. Qed.

(** ** Close *)

Lemma omap_id_nil (errs : list goerror) :
  omap id errs = [] <-> Forall (fun e => e = None) errs.
Proof.
  induction errs as [|[e|] errs IH]; simpl.
  - split; [constructor|reflexivity].
  - split; [discriminate|]. intros H. inversion H. discriminate.
  - rewrite IH. split.
    + intros H. constructor; [reflexivity|exact H].
    + intros H. inversion H. assumption.
Qed.

Lemma Join_nil_iff (errs : list goerror) :
  Join errs = None <-> Forall (fun e => e = None) errs.
Proof.
  rewrite <- omap_id_nil. unfold Join.
  destruct (omap id errs); split; intros H; try reflexivity; discriminate.
Qed.

Lemma appendErr_Forall_nil (errs : list goerror) (e : goerror) :
  Forall (fun x => x = None) (appendErr errs e) <->
  Forall (fun x => x = None) errs /\ e = None.
Proof.
  destruct e as [e|]; simpl.
  - rewrite Forall_app. split.
    + intros [_ H]. inversion H. discriminate.
    + intros [_ H]. discriminate.
  - split; [intros H; split; [exact H|reflexivity]|intros [H _]; exact H].
Qed.

(** The calls [Close] always makes, in order. *)
Definition teardown (f : FwdConn) : list Event :=
  [EvStreamClose (data f); EvRemoveStreams (fwd f) [data f; err f];
   EvConnClose (fwd f)].

(** C3: one call of [Close] closes the data stream, removes both streams from
    the session and closes the session, in this order, whether or not an error
    was pending on [errch]; the error it returns is non-nil exactly when an
    error was pending, or closing the data stream failed, or closing the
    session failed. *)
Theorem Close_tears_down_and_aggregates (f : FwdConn)
    (dataClose fwdClose : goerror) (ch : Chan) :
  snd (Close f dataClose fwdClose ch)
  = map EvRecv (option_list (pending ch)) ++ teardown f /\
  (fst (fst (Close f dataClose fwdClose ch)) <> None <->
   (exists e : error, pending ch = Some (Some e)) \/
   dataClose <> None \/ fwdClose <> None).
Proof.
  unfold Close, pending, teardown.
  destruct (tryRecv ch) as [[e ch']|] eqn:Hrecv; simpl.
  - split; [reflexivity|].
    rewrite Join_nil_iff, !appendErr_Forall_nil.
    destruct e as [e|]; simpl.
    + split; [intros _; left; exists e; reflexivity|].
      intros _ [[H _] _]. inversion H. discriminate.
    + split.
      * intros H. right.
        destruct dataClose; [left; discriminate|].
        destruct fwdClose; [right; discriminate|].
        exfalso. apply H. repeat split. constructor.
      * intros [[e He]|[H|H]] [[_ Hd] Hf]; [discriminate|auto|auto].
  - split; [reflexivity|].
    rewrite Join_nil_iff, !appendErr_Forall_nil.
    split.
    + intros H. right.
      destruct dataClose; [left; discriminate|].
      destruct fwdClose; [right; discriminate|].
      exfalso. apply H. repeat split. constructor.
    + intros [[e He]|[H|H]] [[_ Hd] Hf]; [discriminate|auto|auto].
Qed.

(** ** Forward *)

(** The headers of the two [CreateStream] calls of a forward to [port] with
    request identifier [next]. *)
Definition errorHeaders (port : string) (next : Z) : Header :=
  Header_Set (Header_Set (Header_Set ∅ StreamType StreamTypeError)
                PortHeader port)
    PortForwardRequestIDHeader (Itoa next).

Definition dataHeaders (port : string) (next : Z) : Header :=
  Header_Set (errorHeaders port next) StreamType StreamTypeData.

Lemma canonical_keys_distinct :
  CanonicalMIMEHeaderKey StreamType <> CanonicalMIMEHeaderKey PortHeader /\
  CanonicalMIMEHeaderKey StreamType
  <> CanonicalMIMEHeaderKey PortForwardRequestIDHeader /\
  CanonicalMIMEHeaderKey PortHeader
  <> CanonicalMIMEHeaderKey PortForwardRequestIDHeader.
Proof. vm_compute. repeat split; discriminate. Qed.

Lemma Header_Get_Set (h : Header) (key value : string) :
  Header_Get (Header_Set h key value) key = value.
Proof. unfold Header_Get, Header_Set. rewrite lookup_insert_eq. reflexivity. Qed.

Lemma Header_Get_Set_ne (h : Header) (key key' value : string) :
  CanonicalMIMEHeaderKey key <> CanonicalMIMEHeaderKey key' ->
  Header_Get (Header_Set h key value) key' = Header_Get h key'.
Proof.
  intros Hne. unfold Header_Get, Header_Set.
  rewrite lookup_insert_ne by exact Hne. reflexivity.
Qed.

Lemma errorHeaders_carry (port : string) (next : Z) :
  Header_Get (errorHeaders port next) StreamType = StreamTypeError /\
  Header_Get (errorHeaders port next) PortHeader = port /\
  Header_Get (errorHeaders port next) PortForwardRequestIDHeader = Itoa next.
Proof.
  destruct canonical_keys_distinct as (Hsp & Hsr & Hpr). unfold errorHeaders.
  split; [|split].
  - rewrite !Header_Get_Set_ne by (apply not_eq_sym; assumption).
    apply Header_Get_Set.
  - rewrite Header_Get_Set_ne by (apply not_eq_sym; assumption).
    apply Header_Get_Set.
  - apply Header_Get_Set.
Qed.

Lemma dataHeaders_carry (port : string) (next : Z) :
  Header_Get (dataHeaders port next) StreamType = StreamTypeData /\
  Header_Get (dataHeaders port next) PortHeader = port /\
  Header_Get (dataHeaders port next) PortForwardRequestIDHeader = Itoa next.
Proof.
  destruct canonical_keys_distinct as (Hsp & Hsr & Hpr).
  destruct (errorHeaders_carry port next) as (_ & Hp & Hr).
  unfold dataHeaders. split; [|split].
  - apply Header_Get_Set.
  - rewrite Header_Get_Set_ne by assumption. exact Hp.
  - rewrite Header_Get_Set_ne by assumption. exact Hr.
Qed.

(** The four ways through [Forward]. *)
Lemma Forward_dial_fails env pod port fw log e :
  dial env = Err e ->
  Forward env pod port fw log
  = (Err (ErrWrap "error dialing for stream" e), fw,
     log ++ [EvDial (Namespace pod) (Name pod)]).
Proof.
  intros Hd. unfold Forward, bind, orErrorf, call. rewrite Hd. reflexivity.
Qed.

Lemma Forward_error_stream_fails env pod port fw log conn e :
  dial env = Ok conn -> createErr env = Err e ->
  let next := Int32_Add (reqID fw) 1 in
  Forward env pod port fw log
  = (Err (ErrWrap "error creating err stream" e), {| reqID := next |},
     log ++ [EvDial (Namespace pod) (Name pod)] ++ [EvReqIDAdd next]
         ++ [EvCreateStream conn (errorHeaders port next)]).
Proof.
  intros Hd He next. unfold Forward, bind, orErrorf, call, reqID_Add.
  rewrite Hd, He. rewrite <- !app_assoc. reflexivity.
Qed.

Lemma Forward_data_stream_fails env pod port fw log conn errorStream e :
  dial env = Ok conn -> createErr env = Ok errorStream ->
  createData env = Err e ->
  let next := Int32_Add (reqID fw) 1 in
  Forward env pod port fw log
  = (Err (ErrWrap "error creating data stream" e), {| reqID := next |},
     log ++ [EvDial (Namespace pod) (Name pod)] ++ [EvReqIDAdd next]
         ++ [EvCreateStream conn (errorHeaders port next)]
         ++ [EvStreamClose errorStream]
         ++ [EvCreateStream conn (dataHeaders port next)]).
Proof.
  intros Hd He Hda next. unfold Forward, bind, orErrorf, call, reqID_Add.
  rewrite Hd, He, Hda. rewrite <- !app_assoc. reflexivity.
Qed.

Lemma Forward_succeeds env pod port fw log conn errorStream dataStream :
  dial env = Ok conn -> createErr env = Ok errorStream ->
  createData env = Ok dataStream ->
  let next := Int32_Add (reqID fw) 1 in
  let fc := {| fwd := conn; port := port; err := errorStream;
               data := dataStream; pod := pod |} in
  Forward env pod port fw log
  = (Ok fc, {| reqID := next |},
     log ++ [EvDial (Namespace pod) (Name pod)] ++ [EvReqIDAdd next]
         ++ [EvCreateStream conn (errorHeaders port next)]
         ++ [EvStreamClose errorStream]
         ++ [EvCreateStream conn (dataHeaders port next)]
         ++ [EvGoWatchErr fc]).
Proof.
  intros Hd He Hda next fc.
  unfold Forward, bind, orErrorf, call, reqID_Add, ret.
  rewrite Hd, He, Hda. rewrite <- !app_assoc. reflexivity.
Qed.

(** C8: when [Forward] succeeds, its calls are, in order: the dial, the
    allocation of the request identifier, [CreateStream] for the error stream,
    [Close] on the error stream right after it, [CreateStream] for the data
    stream, and the start of the watcher; both [CreateStream] calls carry the
    stream type (error, then data), the port and the request identifier. *)
Theorem Forward_opens_error_then_data (env : ForwardEnv) (pod : Pod)
    (port : string) (fw fw' : Forwarder) (log log' : list Event)
    (fc : FwdConn) :
  Forward env pod port fw log = (Ok fc, fw', log') ->
  exists herr hdata : Header,
    log' = log ++ [EvDial (Namespace pod) (Name pod);
                   EvReqIDAdd (reqID fw');
                   EvCreateStream (fwd fc) herr;
                   EvStreamClose (err fc);
                   EvCreateStream (fwd fc) hdata;
                   EvGoWatchErr fc] /\
    createErr env = Ok (err fc) /\ createData env = Ok (data fc) /\
    Header_Get herr StreamType = StreamTypeError /\
    Header_Get hdata StreamType = StreamTypeData /\
    Header_Get herr PortHeader = port /\
    Header_Get hdata PortHeader = port /\
    Header_Get herr PortForwardRequestIDHeader = Itoa (reqID fw') /\
    Header_Get hdata PortForwardRequestIDHeader = Itoa (reqID fw').
Proof.
  intros H.
  destruct (dial env) as [conn|e] eqn:Hd;
    [|rewrite (Forward_dial_fails _ _ _ _ _ _ Hd) in H; discriminate].
  destruct (createErr env) as [es|e] eqn:He;
    [|rewrite (Forward_error_stream_fails _ _ _ _ _ _ _ Hd He) in H;
      discriminate].
  destruct (createData env) as [ds|e] eqn:Hda;
    [|rewrite (Forward_data_stream_fails _ _ _ _ _ _ _ _ Hd He Hda) in H;
      discriminate].
  rewrite (Forward_succeeds _ _ _ _ _ _ _ _ Hd He Hda) in H.
  injection H as <- <- <-. simpl.
  destruct (errorHeaders_carry port (Int32_Add (reqID fw) 1)) as (? & ? & ?).
  destruct (dataHeaders_carry port (Int32_Add (reqID fw) 1)) as (? & ? & ?).
  exists (errorHeaders port (Int32_Add (reqID fw) 1)),
         (dataHeaders port (Int32_Add (reqID fw) 1)).
  repeat split; assumption || reflexivity.
Qed.

Lemma Forward_opens_error_then_data_witness :
  let env := {| dial := Ok 7%nat; createErr := Ok 1%nat;
                createData := Ok 3%nat |} in
  let pod := {| Namespace := "default"; Name := "mypod" |} in
  let fc := {| fwd := 7%nat; port := "80"; err := 1%nat; data := 3%nat;
               pod := pod |} in
  exists herr hdata : Header,
    [EvDial "default" "mypod"; EvReqIDAdd 1;
     EvCreateStream 7 (errorHeaders "80" 1); EvStreamClose 1;
     EvCreateStream 7 (dataHeaders "80" 1); EvGoWatchErr fc]
    = [] ++ [EvDial (Namespace pod) (Name pod);
             EvReqIDAdd (reqID {| reqID := 1 |});
             EvCreateStream (fwd fc) herr;
             EvStreamClose (err fc);
             EvCreateStream (fwd fc) hdata;
             EvGoWatchErr fc] /\
    createErr env = Ok (err fc) /\ createData env = Ok (data fc) /\
    Header_Get herr StreamType = StreamTypeError /\
    Header_Get hdata StreamType = StreamTypeData /\
    Header_Get herr PortHeader = "80" /\
    Header_Get hdata PortHeader = "80" /\
    Header_Get herr PortForwardRequestIDHeader = Itoa (reqID {| reqID := 1 |}) /\
    Header_Get hdata PortForwardRequestIDHeader = Itoa (reqID {| reqID := 1 |}).
Proof.
  intros env pod fc.
  apply (Forward_opens_error_then_data env pod "80" NewForwarder
           {| reqID := 1 |} []).
  reflexivity.
Defined.

(** C7 (as stated, refuted): when [CreateStream] for the data stream fails,
    the failed call is the last thing [Forward] does: it returns the error
    without removing the error stream and without closing the session. *)
Lemma Forward_data_failure_leaves_session_open :
  let env := {| dial := Ok 7%nat; createErr := Ok 1%nat;
                createData := Err (ErrOpaque "stream refused") |} in
  let pod := {| Namespace := "default"; Name := "mypod" |} in
  let r := Forward env pod "80" NewForwarder [] in
  fst (fst r)
  = Err (ErrWrap "error creating data stream" (ErrOpaque "stream refused")) /\
  last (snd r) = Some (EvCreateStream 7 (dataHeaders "80" 1)) /\
  ~ In (EvConnClose 7) (snd r) /\
  (forall ss : list StreamId, ~ In (EvRemoveStreams 7 ss) (snd r)).
Proof.
  intros env pod r. subst r.
  rewrite (Forward_data_stream_fails env pod "80" NewForwarder [] 7%nat 1%nat
             (ErrOpaque "stream refused") eq_refl eq_refl eq_refl).
  split; [reflexivity|]. split; [reflexivity|].
  split; [|intros ss]; simpl; intros H;
    repeat (destruct H as [H|H]; [discriminate H|]); exact H.
Qed.

(** C7 (amended): when the dial and the error stream succeed and
    [CreateStream] for the data stream fails, [Forward] returns that error
    wrapped and no adapter.  The only close it has made is the one of the error
    stream's write side, right after creating it and before trying the data
    stream; the failed [CreateStream] is its last call, so it neither removes
    a stream from the session nor closes the session. *)
Theorem Forward_data_failure_no_cleanup (env : ForwardEnv) (pod : Pod)
    (port : string) (fw : Forwarder) (log : list Event) (conn : ConnId)
    (errorStream : StreamId) (e : error) :
  dial env = Ok conn -> createErr env = Ok errorStream ->
  createData env = Err e ->
  exists (fw' : Forwarder) (herr hdata : Header),
    Forward env pod port fw log
    = (Err (ErrWrap "error creating data stream" e), fw',
       log ++ [EvDial (Namespace pod) (Name pod);
               EvReqIDAdd (reqID fw');
               EvCreateStream conn herr;
               EvStreamClose errorStream;
               EvCreateStream conn hdata]) /\
    Header_Get herr StreamType = StreamTypeError /\
    Header_Get hdata StreamType = StreamTypeData.
Proof.
  intros Hd He Hda.
  exists {| reqID := Int32_Add (reqID fw) 1 |},
         (errorHeaders port (Int32_Add (reqID fw) 1)),
         (dataHeaders port (Int32_Add (reqID fw) 1)).
  destruct (errorHeaders_carry port (Int32_Add (reqID fw) 1)) as (Herr & _).
  destruct (dataHeaders_carry port (Int32_Add (reqID fw) 1)) as (Hdata & _).
  split; [exact (Forward_data_stream_fails _ _ _ _ _ _ _ _ Hd He Hda)|].
  split; [exact Herr|exact Hdata].
Qed.

Lemma Forward_data_failure_no_cleanup_witness :
  let env := {| dial := Ok 7%nat; createErr := Ok 1%nat;
                createData := Err (ErrOpaque "stream refused") |} in
  let pod := {| Namespace := "default"; Name := "mypod" |} in
  exists (fw' : Forwarder) (herr hdata : Header),
    Forward env pod "80" NewForwarder []
    = (Err (ErrWrap "error creating data stream" (ErrOpaque "stream refused")),
       fw',
       [] ++ [EvDial (Namespace pod) (Name pod);
              EvReqIDAdd (reqID fw');
              EvCreateStream 7 herr;
              EvStreamClose 1;
              EvCreateStream 7 hdata]) /\
    Header_Get herr StreamType = StreamTypeError /\
    Header_Get hdata StreamType = StreamTypeData.
Proof.
  intros env pod.
  apply (Forward_data_failure_no_cleanup env pod "80" NewForwarder [] 7%nat
           1%nat (ErrOpaque "stream refused")); reflexivity.
Defined.

(** ** Request identifiers *)

Lemma wrap32_in_range (z : Z) : MinInt32 <= z <= MaxInt32 -> wrap32 z = z.
Proof.
  unfold MinInt32, MaxInt32, wrap32. intros H.
  rewrite Z.mod_small by lia. lia.
Qed.

(** What one call of [Forward] does to the counter and to the identifiers of
    the log. *)
Lemma Forward_allocates env pod port fw log :
  let r := Forward env pod port fw log in
  match dial env with
  | Ok _ =>
      reqID (snd (fst r)) = Int32_Add (reqID fw) 1 /\
      allocated (snd r) = allocated log ++ [Int32_Add (reqID fw) 1]
  | Err _ =>
      reqID (snd (fst r)) = reqID fw /\ allocated (snd r) = allocated log
  end.
Proof.
  intros r. subst r. unfold allocated.
  destruct (dial env) as [conn|e] eqn:Hd;
    [|rewrite (Forward_dial_fails _ _ _ _ _ _ Hd); simpl;
      rewrite omap_app, app_nil_r; split; reflexivity].
  destruct (createErr env) as [es|e] eqn:He;
    [|rewrite (Forward_error_stream_fails _ _ _ _ _ _ _ Hd He); simpl;
      rewrite omap_app; split; reflexivity].
  destruct (createData env) as [ds|e] eqn:Hda;
    [rewrite (Forward_succeeds _ _ _ _ _ _ _ _ Hd He Hda)
    |rewrite (Forward_data_stream_fails _ _ _ _ _ _ _ _ Hd He Hda)];
    simpl; rewrite omap_app; split; reflexivity.
Qed.

Lemma forwards_allocated (calls : list (ForwardEnv * Pod * string)) :
  forall (fw : Forwarder) (log : list Event),
    MinInt32 <= reqID fw ->
    reqID fw + Z.of_nat (length calls) <= MaxInt32 ->
    exists ids : list Z,
      allocated (snd (forwards calls fw log)) = allocated log ++ ids /\
      StronglySorted Z.lt ids /\
      Forall (fun i => reqID fw < i <= reqID fw + Z.of_nat (length calls)) ids.
Proof.
  induction calls as [|[[env pod] port] rest IH]; intros fw log Hlo Hhi.
  - exists []. simpl. rewrite app_nil_r. repeat constructor.
  - simpl forwards. simpl length in *.
    pose proof (Forward_allocates env pod port fw log) as Hstep.
    destruct (Forward env pod port fw log) as [[r fw'] log'] eqn:Hf.
    simpl in Hstep. unfold Int32_Add in Hstep.
    rewrite wrap32_in_range in Hstep by lia.
    destruct (dial env) as [conn|e]; destruct Hstep as [Hc Ha].
    + destruct (IH fw' log') as (ids & Hids & Hsorted & Hrange); [lia|lia|].
      exists ((reqID fw + 1) :: ids). rewrite Hids, Ha, <- app_assoc.
      split; [reflexivity|]. split.
      * constructor; [exact Hsorted|].
        eapply Forall_impl; [exact Hrange|]. simpl. intros i Hi. lia.
      * constructor; [lia|].
        eapply Forall_impl; [exact Hrange|]. simpl. intros i Hi. lia.
    + destruct (IH fw' log') as (ids & Hids & Hsorted & Hrange); [lia|lia|].
      exists ids. rewrite Hids, Ha. split; [reflexivity|].
      split; [exact Hsorted|].
      eapply Forall_impl; [exact Hrange|]. simpl. intros i Hi. lia.
Qed.

(** Any value up to [MaxInt32] is reached by the counter of a new forwarder. *)
Lemma forwards_counter (env : ForwardEnv) (pod : Pod) (port : string)
    (conn : ConnId) (n : nat) :
  dial env = Ok conn ->
  forall (fw : Forwarder) (log : list Event),
    MinInt32 <= reqID fw -> reqID fw + Z.of_nat n <= MaxInt32 ->
    reqID (fst (forwards (repeat (env, pod, port) n) fw log))
    = reqID fw + Z.of_nat n.
Proof.
  intros Hd. induction n as [|n IH]; intros fw log Hlo Hhi.
  - simpl. lia.
  - simpl repeat. simpl forwards.
    pose proof (Forward_allocates env pod port fw log) as Hstep.
    destruct (Forward env pod port fw log) as [[r fw'] log'] eqn:Hf.
    simpl in Hstep. rewrite Hd in Hstep. destruct Hstep as [Hc _].
    unfold Int32_Add in Hc. rewrite wrap32_in_range in Hc by lia.
    rewrite IH by lia. lia.
Qed.

Lemma wrap32_add_wrap32 (a b : Z) : wrap32 (wrap32 a + b) = wrap32 (a + b).
Proof.
  unfold wrap32. f_equal.
  replace ((a + 2 ^ 31) mod 2 ^ 32 - 2 ^ 31 + b + 2 ^ 31)
    with ((a + 2 ^ 31) mod 2 ^ 32 + b) by lia.
  rewrite Zplus_mod_idemp_l. f_equal. lia.
Qed.

(** Two sums that wrap to the same value are a multiple of 2^32 apart. *)
Lemma wrap32_eq_window (c i j : Z) :
  wrap32 (c + i) = wrap32 (c + j) -> 0 < i <= 2 ^ 32 -> 0 < j <= 2 ^ 32 ->
  i = j.
Proof.
  unfold wrap32. intros H Hi Hj.
  assert (Hm : (c + i + 2 ^ 31) mod 2 ^ 32 = (c + j + 2 ^ 31) mod 2 ^ 32) by lia.
  pose proof (Z.div_mod (c + i + 2 ^ 31) (2 ^ 32)) as Di.
  pose proof (Z.div_mod (c + j + 2 ^ 31) (2 ^ 32)) as Dj.
  rewrite Hm in Di. change (2 ^ 32) with 4294967296 in *. lia.
Qed.

(** The identifiers a sequence of calls allocates, with the wrap-around: one
    for each call that got past the dial, counting on from the counter. *)
Lemma forwards_allocated_wrap (calls : list (ForwardEnv * Pod * string)) :
  forall (fw : Forwarder) (log : list Event),
    exists m : nat,
      (m <= length calls)%nat /\
      allocated (snd (forwards calls fw log))
      = allocated log
        ++ ((fun k : nat => wrap32 (reqID fw + Z.of_nat k)) <$> seq 1 m).
Proof.
  induction calls as [|[[env pod] port] rest IH]; intros fw log.
  - exists 0%nat. simpl. rewrite app_nil_r. split; [lia|reflexivity].
  - simpl forwards. simpl length.
    pose proof (Forward_allocates env pod port fw log) as Hstep.
    destruct (Forward env pod port fw log) as [[r fw'] log'] eqn:Hf.
    simpl in Hstep. destruct (IH fw' log') as (m & Hm & Hids).
    destruct (dial env) as [conn|e]; destruct Hstep as [Hc Ha].
    + exists (S m). split; [lia|]. rewrite Hids, Ha, <- app_assoc. f_equal.
      change (seq 1 (S m)) with (1%nat :: seq 2 m). rewrite fmap_cons.
      simpl app. f_equal.
      rewrite <- (fmap_S_seq 1 m), <- list_fmap_compose.
      apply list_fmap_ext. intros _ k _. simpl. rewrite Hc.
      unfold Int32_Add. rewrite wrap32_add_wrap32. f_equal. lia.
    + exists m. split; [lia|]. rewrite Hids, Ha, Hc. reflexivity.
Qed.

Lemma wrapped_ids_NoDup (c : Z) (m : nat) :
  Z.of_nat m <= 2 ^ 32 ->
  NoDup ((fun k : nat => wrap32 (c + Z.of_nat k)) <$> seq 1 m).
Proof.
  intros Hm. apply NoDup_fmap_2_strong; [|apply NoDup_seq].
  intros i j Hi Hj Heq. apply elem_of_seq in Hi, Hj.
  apply wrap32_eq_window in Heq; lia.
Qed.

(** Beyond 2^32 calls the identifiers repeat: the call 2^32 calls later is
    given the same value. *)
Lemma wrapped_ids_repeat (c k : Z) :
  wrap32 (c + (k + 2 ^ 32)) = wrap32 (c + k).
Proof.
  unfold wrap32. f_equal.
  replace (c + (k + 2 ^ 32) + 2 ^ 31) with (c + k + 2 ^ 31 + 1 * 2 ^ 32) by lia.
  apply Z_mod_plus_full.
Qed.

(** C6 (as stated, refuted): on a forwarder whose counter has reached
    2147483646, two calls get 2147483647 and then -2147483648. *)
Lemma request_ids_wrap_around :
  let env := {| dial := Ok 7%nat; createErr := Ok 1%nat;
                createData := Ok 3%nat |} in
  let pod := {| Namespace := "default"; Name := "mypod" |} in
  let ids := allocated (snd (forwards [(env, pod, "80"); (env, pod, "80")]
                               {| reqID := 2147483646 |} [])) in
  ids = [2147483647; -2147483648] /\ ~ StronglySorted Z.lt ids.
Proof.
  intros env pod ids.
  assert (Hids : ids = [2147483647; -2147483648]) by (vm_compute; reflexivity).
  split; [exact Hids|]. rewrite Hids. intros Hs.
  inversion Hs as [|? ? _ Hall]. inversion Hall as [|? ? Hlt _]. lia.
Qed.

(** C6 (amended): the identifiers allocated by any calls of [Forward] on one
    forwarder are pairwise distinct, the wrap-around of the int32 counter
    included, as long as there are at most 2^32 calls: no two calls observe
    the same value.  Taken in the order of their atomic [Add], they are
    strictly increasing, each above the value the counter had before, as long
    as the counter stays within int32, that is when its value before the
    calls plus their number is at most 2147483647. *)
Theorem request_ids_distinct_and_ordered (fw : Forwarder)
    (calls : list (ForwardEnv * Pod * string)) :
  (Z.of_nat (length calls) <= 2 ^ 32 ->
   NoDup (allocated (snd (forwards calls fw [])))) /\
  (MinInt32 <= reqID fw ->
   reqID fw + Z.of_nat (length calls) <= MaxInt32 ->
   StronglySorted Z.lt (allocated (snd (forwards calls fw []))) /\
   Forall (fun i => reqID fw < i <= reqID fw + Z.of_nat (length calls))
          (allocated (snd (forwards calls fw [])))).
Proof.
  split.
  - intros Hn.
    destruct (forwards_allocated_wrap calls fw []) as (m & Hm & ->).
    simpl. apply wrapped_ids_NoDup. lia.
  - intros Hlo Hhi.
    destruct (forwards_allocated calls fw [] Hlo Hhi) as (ids & -> & Hs & Hr).
    simpl. split; [exact Hs|exact Hr].
Qed.

Lemma request_ids_distinct_and_ordered_witness :
  let env := {| dial := Ok 7%nat; createErr := Ok 1%nat;
                createData := Ok 3%nat |} in
  let bad := {| dial := Err (ErrOpaque "no route"); createErr := Ok 1%nat;
                createData := Ok 3%nat |} in
  let pod := {| Namespace := "default"; Name := "mypod" |} in
  let calls := [(env, pod, "80"); (bad, pod, "80"); (env, pod, "443")] in
  allocated (snd (forwards calls {| reqID := 2147483646 |} []))
  = [2147483647; -2147483648] /\
  NoDup (allocated (snd (forwards calls {| reqID := 2147483646 |} []))) /\
  StronglySorted Z.lt (allocated (snd (forwards calls NewForwarder []))) /\
  Forall (fun i => reqID NewForwarder < i
                   <= reqID NewForwarder + Z.of_nat (length calls))
         (allocated (snd (forwards calls NewForwarder []))).
Proof.
  intros env bad pod calls.
  split; [vm_compute; reflexivity|]. split.
  - apply (request_ids_distinct_and_ordered {| reqID := 2147483646 |} calls).
    simpl. lia.
  - apply (request_ids_distinct_and_ordered NewForwarder calls).
    + unfold MinInt32. simpl. lia.
    + unfold MaxInt32. simpl. lia.
Defined.

(** ** The error channel *)

(** What [io.ReadAll] returned in a run: the first [EnvReadAll]; a later one
    finds the watcher past [io.ReadAll] and does nothing. *)
Fixpoint firstReadAll (ops : list Op) : option (string * goerror) :=
  match ops with
  | [] => None
  | EnvReadAll bs e :: _ => Some (bs, e)
  | _ :: ops' => firstReadAll ops'
  end.

Lemma offers_body (bs : string) :
  offers (watchErr_body bs)
  = match watchErr_body bs with WSelectBody e => [Some e] | _ => [] end.
Proof. unfold watchErr_body. destruct (0 <? String.length bs)%nat; reflexivity. Qed.

Lemma tryRecv_Some (ch ch' : Chan) (e : goerror) :
  tryRecv ch = Some (e, ch') ->
  offers (watcher ch) = e :: offers (watcher ch') /\
  watcher ch' = watchErr_resume (watcher ch) /\
  watcher ch <> WReadAll /\ watcher ch' <> WReadAll.
Proof.
  unfold tryRecv. destruct (watcher ch) as [|e0 bs|e0|] eqn:Hw;
    intros H; try discriminate; injection H as <- <-; simpl.
  - rewrite offers_body. repeat split; try discriminate.
    unfold watchErr_body. destruct (0 <? String.length bs)%nat; discriminate.
  - repeat split; discriminate.
Qed.

Lemma tryRecv_None (ch : Chan) :
  tryRecv ch = None -> offers (watcher ch) = [].
Proof.
  unfold tryRecv. destruct (watcher ch); intros H; try discriminate; reflexivity.
Qed.

Lemma watchErr_done_quiet (w : Watcher) :
  offers (watchErr_done w) = [] /\ (w <> WReadAll -> watchErr_done w <> WReadAll).
Proof.
  unfold watchErr_done. destruct w as [|e bs|e|]; simpl; try (split; congruence).
  unfold watchErr_body. destruct (0 <? String.length bs)%nat; simpl;
    split; congruence.
Qed.

Lemma watchErr_read_parks (bs : string) (e : goerror) :
  watchErr_read bs e <> WReadAll.
Proof.
  unfold watchErr_read, watchErr_body.
  destruct e; [|destruct (0 <? String.length bs)%nat]; discriminate.
Qed.

(** One step of a watcher that is past [io.ReadAll]: what the step receives,
    followed by what the watcher offers afterwards, was on offer before. *)
Lemma step_received (f : FwdConn) (op : Op) (ch : Chan) :
  watcher ch <> WReadAll ->
  prefix (received (snd (step f op ch)) ++ offers (watcher (snd (fst (step f op ch)))))
         (offers (watcher ch)) /\
  watcher (snd (fst (step f op ch))) <> WReadAll.
Proof.
  intros Hw.
  destruct op as [b ans|b ans|dc fc|now t|now t|now t|bs e|]; simpl.
  - unfold Read. destruct (tryRecv ch) as [[e ch']|] eqn:Hr.
    + apply tryRecv_Some in Hr as (-> & _ & _ & Hw'). simpl. split; [reflexivity|exact Hw'].
    + destruct ans. simpl. split; [reflexivity|exact Hw].
  - unfold Write. destruct (tryRecv ch) as [[e ch']|] eqn:Hr.
    + apply tryRecv_Some in Hr as (-> & _ & _ & Hw'). simpl. split; [reflexivity|exact Hw'].
    + destruct ans. simpl. split; [reflexivity|exact Hw].
  - unfold Close. destruct (tryRecv ch) as [[e ch']|] eqn:Hr.
    + apply tryRecv_Some in Hr as (-> & _ & _ & Hw'). simpl. split; [reflexivity|exact Hw'].
    + simpl. split; [reflexivity|exact Hw].
  - split; [reflexivity|exact Hw].
  - split; [reflexivity|exact Hw].
  - split; [reflexivity|exact Hw].
  - unfold readAll_returns. destruct (watcher ch) eqn:Hwc; try congruence;
      rewrite Hwc; split; (reflexivity || discriminate).
  - destruct (watchErr_done_quiet (watcher ch)) as [-> Hq].
    split; [apply prefix_nil|apply Hq, Hw].
Qed.

Lemma run_cons (f : FwdConn) (op : Op) (ops : list Op) (ch : Chan) :
  snd (run f (op :: ops) ch)
  = snd (step f op ch) ++ snd (run f ops (snd (fst (step f op ch)))).
Proof.
  simpl. destruct (step f op ch) as [[r ch'] log]. simpl.
  destruct (run f ops ch') as [[rs ch''] log']. reflexivity.
Qed.

Lemma received_app (l1 l2 : list Event) :
  received (l1 ++ l2) = received l1 ++ received l2.
Proof. apply omap_app. Qed.

(** Past [io.ReadAll], a run receives a prefix of what the watcher offers. *)
Lemma run_received_parked (f : FwdConn) (ops : list Op) :
  forall ch : Chan,
    watcher ch <> WReadAll ->
    prefix (received (snd (run f ops ch))) (offers (watcher ch)).
Proof.
  induction ops as [|op ops IH]; intros ch Hw.
  - apply prefix_nil.
  - rewrite run_cons, received_app.
    destruct (step_received f op ch Hw) as [Hp Hw'].
    etransitivity; [|exact Hp].
    apply prefix_app, IH, Hw'.
Qed.

(** From the start of the watcher, a run receives a prefix of what the watcher
    offers once [io.ReadAll] has returned, and nothing if it never does. *)
Lemma run_received_spawned (f : FwdConn) (ops : list Op) :
  forall ch : Chan,
    watcher ch = WReadAll ->
    prefix (received (snd (run f ops ch)))
           match firstReadAll ops with
           | Some (bs, e) => offers (watchErr_read bs e)
           | None => []
           end.
Proof.
  induction ops as [|op ops IH]; intros ch Hw.
  - apply prefix_nil.
  - rewrite run_cons, received_app.
    assert (Hquiet : tryRecv ch = None) by (unfold tryRecv; rewrite Hw; reflexivity).
    destruct op as [b ans|b ans|dc fc|now t|now t|now t|bs e|]; simpl firstReadAll.
    + simpl. unfold Read. rewrite Hquiet. destruct ans. simpl. apply IH, Hw.
    + simpl. unfold Write. rewrite Hquiet. destruct ans. simpl. apply IH, Hw.
    + simpl. unfold Close. rewrite Hquiet. simpl. apply IH, Hw.
    + simpl. apply IH, Hw.
    + simpl. apply IH, Hw.
    + simpl. apply IH, Hw.
    + simpl. unfold readAll_returns. rewrite Hw.
      etransitivity; [apply run_received_parked|]; simpl.
      * destruct (ctxDone ch); [|apply watchErr_read_parks].
        apply watchErr_done_quiet, watchErr_read_parks.
      * destruct (ctxDone ch); [|reflexivity].
        destruct (watchErr_done_quiet (watchErr_read bs e)) as [-> _].
        apply prefix_nil.
    + simpl. apply IH. simpl. rewrite Hw. reflexivity.
Qed.

(** What a watcher offers after [io.ReadAll]: at most two values, different
    from each other; at most one unless the read both failed and returned
    content; none after a clean end of stream without content. *)
Lemma offers_watchErr_read (bs : string) (e : goerror) :
  NoDup (offers (watchErr_read bs e)) /\
  (length (offers (watchErr_read bs e)) <= 2)%nat /\
  (e = None \/ bs = "" -> (length (offers (watchErr_read bs e)) <= 1)%nat) /\
  (e = None -> bs = "" -> offers (watchErr_read bs e) = []).
Proof.
  unfold watchErr_read. destruct e as [e|]; simpl.
  - unfold watchErr_body. destruct bs as [|c bs]; simpl.
    + repeat split; try lia; try discriminate.
      apply NoDup_singleton.
    + repeat split; try lia; try discriminate.
      * apply NoDup_cons. split; [|apply NoDup_singleton].
        rewrite list_elem_of_singleton. discriminate.
      * intros [H|H]; discriminate.
  - rewrite offers_body. unfold watchErr_body. destruct bs as [|c bs]; simpl.
    + repeat split; try lia. apply NoDup_nil_2.
    + repeat split; try lia; try discriminate. apply NoDup_singleton.
Qed.

Lemma prefix_NoDup {A} (l1 l2 : list A) : prefix l1 l2 -> NoDup l2 -> NoDup l1.
Proof. intros [k ->] H. apply NoDup_app in H. apply H. Qed.

(** An operation takes at most one value from [errch], the one the channel
    holds, and that value is the error it returns ([Read], [Write]) or the
    first error it joins ([Close]). *)
Lemma step_surfaces (f : FwdConn) (op : Op) (ch : Chan) :
  match received (snd (step f op ch)) with
  | [] => True
  | [e] =>
      pending ch = Some e /\
      pending (snd (fst (step f op ch))) = head (tail (offers (watcher ch))) /\
      match op with
      | OpRead _ _ | OpWrite _ _ => fst (fst (step f op ch)) = RetIO 0 e
      | OpClose dataClose fwdClose =>
          fst (fst (step f op ch))
          = RetErr (Join (appendErr (appendErr (appendErr [] e) dataClose)
                            fwdClose))
      | _ => False
      end
  | _ => False
  end.
Proof.
  assert (Hnext : forall e ch', tryRecv ch = Some (e, ch') ->
            pending ch' = head (tail (offers (watcher ch)))).
  { intros e ch' Hr. apply tryRecv_Some in Hr as (-> & Hw' & _ & _). simpl.
    unfold pending, tryRecv. destruct (watcher ch'); reflexivity. }
  destruct op as [b ans|b ans|dc fc|now t|now t|now t|bs e|]; simpl;
    try exact I.
  - unfold Read, pending. destruct (tryRecv ch) as [[e ch']|] eqn:Hr; simpl.
    + repeat split. apply (Hnext e ch' eq_refl).
    + destruct ans. exact I.
  - unfold Write, pending. destruct (tryRecv ch) as [[e ch']|] eqn:Hr; simpl.
    + repeat split. apply (Hnext e ch' eq_refl).
    + destruct ans. exact I.
  - unfold Close, pending. destruct (tryRecv ch) as [[e ch']|] eqn:Hr; simpl.
    + repeat split. apply (Hnext e ch' eq_refl).
    + exact I.
Qed.

(** C1 (as stated, refuted): with "connection refused" delivered on [errch],
    the next [Read] returns the error, and the [Write] after it goes to the
    data stream and returns what the stream answers. *)
Lemma second_call_reaches_data_stream :
  let f := {| fwd := 7%nat; data := 3%nat; err := 1%nat; port := "80";
              pod := {| Namespace := "default"; Name := "mypod" |} |} in
  let e := Some (ErrText "error returned from apiserver" "connection refused") in
  let ch := readAll_returns "connection refused" None (spawned false) in
  pending ch = Some e /\
  fst (fst (run f [OpRead 16 (2, None); OpWrite "GET /" (5, None)] ch))
  = [RetIO 0 e; RetIO 5 None] /\
  snd (run f [OpRead 16 (2, None); OpWrite "GET /" (5, None)] ch)
  = [EvRecv e; EvStreamWrite 3 "GET /"].
Proof. repeat split. Qed.

(** C1 (amended): when [errch] holds an error [e], the next [Read] or [Write]
    returns [(0, e)] and does not call the data stream.  That call takes [e]
    out of the channel; once the channel holds nothing, [Read] and [Write]
    call the data stream and return its answer. *)
Theorem poisoned_call_fails_fast_once (f : FwdConn) (ch : Chan) (e : goerror) :
  pending ch = Some e ->
  exists ch' : Chan,
    (forall (b : nat) (ans : Z * goerror),
        Read f b ans ch = ((0, e), ch', [EvRecv e])) /\
    (forall (b : string) (ans : Z * goerror),
        Write f b ans ch = ((0, e), ch', [EvRecv e])) /\
    offers (watcher ch) = e :: offers (watcher ch') /\
    (pending ch' = None ->
     (forall (b : nat) (ans : Z * goerror),
         Read f b ans ch' = (ans, ch', [EvStreamRead (data f) b])) /\
     (forall (b : string) (ans : Z * goerror),
         Write f b ans ch' = (ans, ch', [EvStreamWrite (data f) b]))).
Proof.
  unfold pending, Read, Write. intros Hp.
  destruct (tryRecv ch) as [[e0 ch']|] eqn:Hr; [|discriminate].
  injection Hp as ->. exists ch'.
  apply tryRecv_Some in Hr as (Ho & _).
  split; [reflexivity|]. split; [reflexivity|]. split; [exact Ho|].
  intros Hn. destruct (tryRecv ch') as [[e1 ch1]|]; [discriminate|].
  split; reflexivity.
Qed.

Lemma poisoned_call_fails_fast_once_witness :
  let f := {| fwd := 7%nat; data := 3%nat; err := 1%nat; port := "80";
              pod := {| Namespace := "default"; Name := "mypod" |} |} in
  let e := Some (ErrText "error returned from apiserver" "connection refused") in
  let ch := readAll_returns "connection refused" None (spawned false) in
  pending ch = Some e /\
  exists ch' : Chan,
    (forall (b : nat) (ans : Z * goerror),
        Read f b ans ch = ((0, e), ch', [EvRecv e])) /\
    (forall (b : string) (ans : Z * goerror),
        Write f b ans ch = ((0, e), ch', [EvRecv e])) /\
    offers (watcher ch) = e :: offers (watcher ch') /\
    (pending ch' = None ->
     (forall (b : nat) (ans : Z * goerror),
         Read f b ans ch' = (ans, ch', [EvStreamRead (data f) b])) /\
     (forall (b : string) (ans : Z * goerror),
         Write f b ans ch' = (ans, ch', [EvStreamWrite (data f) b]))).
Proof.
  intros f e ch. split; [reflexivity|].
  apply (poisoned_call_fails_fast_once f ch e). reflexivity.
Defined.




(** C5 (as stated, refuted): after a read of the error stream that failed with
    content, a [Write] returns the read error and the [Close] after it returns
    a second error, the content (the watcher being at its second [select] by
    the time of the [Close]). *)
Lemma two_errors_surface :
  let f := {| fwd := 7%nat; data := 3%nat; err := 1%nat; port := "80";
              pod := {| Namespace := "default"; Name := "mypod" |} |} in
  let ops := [EnvReadAll "partial" (Some (ErrOpaque "connection reset"));
              OpWrite "GET /" (5, None); OpClose None None] in
  fst (fst (run f ops (spawned false)))
  = [RetEnv;
     RetIO 0 (Some (ErrWrap "error while reading error stream"
                      (ErrOpaque "connection reset")));
     RetErr (Some (ErrJoin [ErrText "error returned from apiserver"
                              "partial"]))].
Proof. reflexivity. Qed.

(** C5 (amended): a value delivered on [errch] is taken by exactly one
    operation, which returns it ([Read], [Write]) or joins it ([Close]); the
    values taken in a run of an adapter are pairwise different, so no later
    operation sees a value again; at most two errors surface per adapter. *)
Theorem errch_value_surfaces_once (f : FwdConn) (done : bool) (ops : list Op) :
  NoDup (received (snd (run f ops (spawned done)))) /\
  (length (received (snd (run f ops (spawned done)))) <= 2)%nat /\
  (forall (op : Op) (ch : Chan),
      (length (received (snd (step f op ch))) <= 1)%nat /\
      forall e : goerror,
        received (snd (step f op ch)) = [e] ->
        pending ch = Some e /\
        (fst (fst (step f op ch)) = RetIO 0 e \/
         exists dataClose fwdClose : goerror,
           fst (fst (step f op ch))
           = RetErr (Join (appendErr (appendErr (appendErr [] e) dataClose)
                             fwdClose)))).
Proof.
  pose proof (run_received_spawned f ops (spawned done) eq_refl) as Hp.
  split; [|split].
  - eapply prefix_NoDup; [exact Hp|].
    destruct (firstReadAll ops) as [[bs e]|]; [|apply NoDup_nil_2].
    apply offers_watchErr_read.
  - apply prefix_length in Hp.
    destruct (firstReadAll ops) as [[bs e]|]; [|simpl in Hp; lia].
    destruct (offers_watchErr_read bs e) as (_ & Hle & _). lia.
  - intros op ch. pose proof (step_surfaces f op ch) as Hs.
    destruct (received (snd (step f op ch))) as [|e0 [|e1 rest]];
      [split; [simpl; lia|discriminate]| |destruct Hs].
    split; [simpl; lia|]. intros e He. injection He as <-.
    destruct Hs as (Hpend & _ & Hret). split; [exact Hpend|].
    destruct op as [b ans|b ans|dc fc|now t|now t|now t|bs e'|];
      [left; exact Hret|left; exact Hret|right; exists dc, fc; exact Hret
      |destruct Hret|destruct Hret|destruct Hret|destruct Hret|destruct Hret].
Qed.

Lemma errch_value_surfaces_once_witness :
  let f := {| fwd := 7%nat; data := 3%nat; err := 1%nat; port := "80";
              pod := {| Namespace := "default"; Name := "mypod" |} |} in
  let e := Some (ErrText "error returned from apiserver" "connection refused") in
  let ch := readAll_returns "connection refused" None (spawned false) in
  received (snd (step f (OpRead 16 (2, None)) ch)) = [e] /\
  pending ch = Some e /\
  (fst (fst (step f (OpRead 16 (2, None)) ch)) = RetIO 0 e \/
   exists dataClose fwdClose : goerror,
     fst (fst (step f (OpRead 16 (2, None)) ch))
     = RetErr (Join (appendErr (appendErr (appendErr [] e) dataClose)
                       fwdClose))).
Proof.
  intros f e ch. split; [reflexivity|].
  destruct (errch_value_surfaces_once f false []) as (_ & _ & H).
  destruct (H (OpRead 16 (2, None)) ch) as [_ H'].
  apply (H' e). reflexivity.
Defined.

(** * Further properties *)

(** ** The watcher and the context *)

(** The watcher is not parked on [errch]: it is still in [io.ReadAll] or it
    has returned. *)
Definition released (ch : Chan) : Prop :=
  watcher ch = WReadAll \/ watcher ch = WReturned.

Lemma watchErr_done_returned (w : Watcher) :
  w <> WReadAll -> watchErr_done w = WReturned.
Proof.
  unfold watchErr_done. destruct w as [|e bs|e|]; simpl; try congruence.
  intros _. unfold watchErr_body. destruct (0 <? String.length bs)%nat; reflexivity.
Qed.

Lemma released_tryRecv (ch : Chan) : released ch -> tryRecv ch = None.
Proof. unfold tryRecv. intros [-> | ->]; reflexivity. Qed.

Lemma run_cons_full (f : FwdConn) (op : Op) (ops : list Op) (ch : Chan) :
  run f (op :: ops) ch
  = (fst (fst (step f op ch))
       :: fst (fst (run f ops (snd (fst (step f op ch))))),
     snd (fst (run f ops (snd (fst (step f op ch))))),
     snd (step f op ch) ++ snd (run f ops (snd (fst (step f op ch))))).
Proof.
  simpl. destruct (step f op ch) as [[r ch'] log]. simpl.
  destruct (run f ops ch') as [[rs ch''] log']. reflexivity.
Qed.

(** With nothing in [errch], an operation is [passthrough]; only the steps of
    the environment change the channel. *)
Lemma step_passthrough (f : FwdConn) (op : Op) (ch : Chan) :
  tryRecv ch = None ->
  fst (fst (step f op ch)) = fst (passthrough f op) /\
  snd (step f op ch) = snd (passthrough f op) /\
  match op with
  | EnvReadAll bs e => snd (fst (step f op ch)) = readAll_returns bs e ch
  | EnvCancel => snd (fst (step f op ch)) = cancel ch
  | _ => snd (fst (step f op ch)) = ch
  end.
Proof.
  intros Hn.
  destruct op as [b [n e]|b [n e]|dc fc|now t|now t|now t|bs e|]; simpl;
    unfold Read, Write, Close; rewrite ?Hn; simpl; repeat split.
  destruct dc, fc; reflexivity.
Qed.

(** The channel stays empty over [ops]: the watcher is released, and while it
    is in [io.ReadAll] either the context is done or the read will end
    cleanly without content, if it ends at all. *)
Definition staysEmpty (ops : list Op) (ch : Chan) : Prop :=
  released ch /\
  (watcher ch = WReadAll ->
   ctxDone ch = true \/ firstReadAll ops = None \/
   firstReadAll ops = Some ("", None)).

Lemma staysEmpty_step (f : FwdConn) (op : Op) (ops : list Op) (ch : Chan) :
  staysEmpty (op :: ops) ch -> staysEmpty ops (snd (fst (step f op ch))).
Proof.
  intros [Hrel Hread].
  destruct (step_passthrough f op ch (released_tryRecv ch Hrel)) as (_ & _ & Hch).
  destruct op as [b ans|b ans|dc fc|now t|now t|now t|bs e|];
    rewrite Hch; try (split; [exact Hrel|exact Hread]).
  - unfold readAll_returns. destruct Hrel as [Hw|Hw]; rewrite Hw.
    + specialize (Hread Hw). simpl in Hread.
      destruct (ctxDone ch) eqn:Hd; simpl.
      * rewrite watchErr_done_returned by apply watchErr_read_parks.
        split; [right; reflexivity|intros H; discriminate H].
      * destruct Hread as [H|[H|H]]; try discriminate H.
        injection H as -> ->. simpl.
        split; [right; reflexivity|intros H; discriminate H].
    + split; [right; exact Hw|intros H; congruence].
  - unfold cancel. split.
    + simpl. destruct Hrel as [-> | ->]; [left|right]; reflexivity.
    + intros _. left. reflexivity.
Qed.

Lemma run_staysEmpty (f : FwdConn) (ops : list Op) :
  forall ch : Chan,
    staysEmpty ops ch ->
    fst (fst (run f ops ch)) = map (fun op => fst (passthrough f op)) ops /\
    snd (run f ops ch) = concat (map (fun op => snd (passthrough f op)) ops) /\
    released (snd (fst (run f ops ch))).
Proof.
  induction ops as [|op ops IH]; intros ch Hs.
  - simpl. repeat split. apply Hs.
  - rewrite run_cons_full. simpl.
    destruct (step_passthrough f op ch (released_tryRecv ch (proj1 Hs)))
      as (Hr & Hl & _).
    destruct (IH _ (staysEmpty_step f op ops ch Hs)) as (IHr & IHl & IHrel).
    rewrite Hr, Hl, IHr, IHl. repeat split. exact IHrel.
Qed.

Lemma received_passthrough (f : FwdConn) (ops : list Op) :
  received (concat (map (fun op => snd (passthrough f op)) ops)) = [].
Proof.
  induction ops as [|op ops IH]; [reflexivity|]. simpl.
  rewrite received_app, IH, app_nil_r.
  destruct op as [b [n e]|b [n e]|dc fc|now t|now t|now t|bs e|]; reflexivity.
Qed.

(** X1: once the context is cancelled nothing is received from [errch] any
    more, whatever the watcher was doing or offering at that moment: every
    later [Read], [Write] and [Close] goes to the data stream or tears down
    and returns the answers of the streams and the session. *)
Theorem cancel_silences_errch (f : FwdConn) (ch : Chan) (ops : list Op) :
  pending (cancel ch) = None /\
  received (snd (run f ops (cancel ch))) = [] /\
  fst (fst (run f ops (cancel ch))) = map (fun op => fst (passthrough f op)) ops /\
  snd (run f ops (cancel ch))
  = concat (map (fun op => snd (passthrough f op)) ops).
Proof.
  assert (Hrel : released (cancel ch)).
  { unfold released, cancel. simpl. destruct (watcher ch) eqn:Hw.
    - left. reflexivity.
    - right. apply watchErr_done_returned. discriminate.
    - right. reflexivity.
    - right. reflexivity. }
  assert (Hs : staysEmpty ops (cancel ch)).
  { split; [exact Hrel|]. intros _. left. reflexivity. }
  destruct (run_staysEmpty f ops (cancel ch) Hs) as (Hr & Hl & _).
  split; [unfold pending; rewrite (released_tryRecv _ Hrel); reflexivity|].
  split; [rewrite Hl; apply received_passthrough|].
  split; [exact Hr|exact Hl].
Qed.

(** X2: while the error stream stays silent (its read has not ended, or ends
    cleanly without content) the adapter is transparent: in any run from
    [Forward] on, [Read] and [Write] make one call on the data stream each
    and return its answer, count and error alike, [Close] returns the join of
    the two close errors, and nothing comes from [errch]. *)
Theorem silent_error_stream_passthrough (f : FwdConn) (done : bool)
    (ops : list Op) :
  firstReadAll ops = None \/ firstReadAll ops = Some ("", None) ->
  fst (fst (run f ops (spawned done)))
  = map (fun op => fst (passthrough f op)) ops /\
  snd (run f ops (spawned done))
  = concat (map (fun op => snd (passthrough f op)) ops).
Proof.
  intros H.
  assert (Hs : staysEmpty ops (spawned done)).
  { split; [left; reflexivity|]. intros _. right. exact H. }
  destruct (run_staysEmpty f ops (spawned done) Hs) as (Hr & Hl & _).
  split; [exact Hr|exact Hl].
Qed.

Lemma silent_error_stream_passthrough_witness :
  let f := {| fwd := 7%nat; data := 3%nat; err := 1%nat; port := "80";
              pod := {| Namespace := "default"; Name := "mypod" |} |} in
  let ops := [OpWrite "GET /" (5, None); OpRead 16 (2, None);
              EnvReadAll "" None; OpRead 16 (0, Some (ErrOpaque "EOF"));
              OpClose None None] in
  fst (fst (run f ops (spawned false)))
  = [RetIO 5 None; RetIO 2 None; RetEnv; RetIO 0 (Some (ErrOpaque "EOF"));
     RetErr None] /\
  snd (run f ops (spawned false))
  = [EvStreamWrite 3 "GET /"; EvStreamRead 3 16; EvStreamRead 3 16;
     EvStreamClose 3; EvRemoveStreams 7 [3%nat; 1%nat]; EvConnClose 7].
Proof.
  intros f ops.
  apply (silent_error_stream_passthrough f false ops).
  right. reflexivity.
Defined.

Lemma tryRecv_ctxDone (ch ch' : Chan) (e : goerror) :
  tryRecv ch = Some (e, ch') -> ctxDone ch' = ctxDone ch.
Proof.
  unfold tryRecv. destruct (watcher ch); intros H; try discriminate;
    injection H as <- <-; reflexivity.
Qed.

(** A done context and a parked watcher do not go together: the step that
    closes [ctx.Done()] lets the watcher run on. *)
Lemma step_done_released (f : FwdConn) (op : Op) (ch : Chan) :
  (ctxDone ch = true -> released ch) ->
  ctxDone (snd (fst (step f op ch))) = true ->
  released (snd (fst (step f op ch))).
Proof.
  intros Hinv.
  assert (Hrecv : forall e ch', tryRecv ch = Some (e, ch') ->
            ctxDone ch' = true -> released ch').
  { intros e ch' Hr Hd. rewrite (tryRecv_ctxDone _ _ _ Hr) in Hd.
    rewrite (released_tryRecv ch (Hinv Hd)) in Hr. discriminate. }
  destruct op as [b ans|b ans|dc fc|now t|now t|now t|bs e|]; simpl;
    try exact Hinv.
  - unfold Read. destruct (tryRecv ch) as [[e ch']|] eqn:Hr; simpl;
      [apply (Hrecv e ch' eq_refl)|destruct ans; exact Hinv].
  - unfold Write. destruct (tryRecv ch) as [[e ch']|] eqn:Hr; simpl;
      [apply (Hrecv e ch' eq_refl)|destruct ans; exact Hinv].
  - unfold Close. destruct (tryRecv ch) as [[e ch']|] eqn:Hr; simpl;
      [apply (Hrecv e ch' eq_refl)|exact Hinv].
  - unfold readAll_returns. destruct (watcher ch) eqn:Hw; try exact Hinv.
    simpl. intros Hd. rewrite Hd. right.
    apply watchErr_done_returned, watchErr_read_parks.
  - intros _. unfold released. simpl. destruct (watcher ch) eqn:Hw.
    + left. reflexivity.
    + right. apply watchErr_done_returned. discriminate.
    + right. reflexivity.
    + right. reflexivity.
Qed.

Lemma run_done_released (f : FwdConn) (ops : list Op) :
  forall ch : Chan,
    (ctxDone ch = true -> released ch) ->
    ctxDone (snd (fst (run f ops ch))) = true ->
    released (snd (fst (run f ops ch))).
Proof.
  induction ops as [|op ops IH]; intros ch Hinv; [exact Hinv|].
  rewrite run_cons_full. simpl. apply IH, step_done_released, Hinv.
Qed.

Lemma run_stays_past (f : FwdConn) (ops : list Op) :
  forall ch : Chan,
    watcher ch <> WReadAll -> watcher (snd (fst (run f ops ch))) <> WReadAll.
Proof.
  induction ops as [|op ops IH]; intros ch Hw; [exact Hw|].
  rewrite run_cons_full. simpl. apply IH, (step_received f op ch Hw).
Qed.

Lemma run_leaves_ReadAll (f : FwdConn) (ops : list Op) :
  forall ch : Chan,
    watcher ch = WReadAll -> firstReadAll ops <> None ->
    watcher (snd (fst (run f ops ch))) <> WReadAll.
Proof.
  induction ops as [|op ops IH]; intros ch Hw Hfirst; [contradiction|].
  rewrite run_cons_full. simpl.
  assert (Hn : tryRecv ch = None) by (apply released_tryRecv; left; exact Hw).
  destruct (step_passthrough f op ch Hn) as (_ & _ & Hch).
  destruct op as [b ans|b ans|dc fc|now t|now t|now t|bs e|];
    rewrite Hch; try (apply IH; [exact Hw|exact Hfirst]).
  - apply run_stays_past. unfold readAll_returns. rewrite Hw. simpl.
    destruct (ctxDone ch).
    + rewrite watchErr_done_returned by apply watchErr_read_parks. discriminate.
    + apply watchErr_read_parks.
  - apply IH; [|exact Hfirst]. unfold cancel. simpl. rewrite Hw. reflexivity.
Qed.

(** X3: a watcher never stays blocked on [errch] under a cancelled context.
    In any run from [Forward] on, once the context is done the channel holds
    nothing, and if [io.ReadAll] on the error stream has returned the watcher
    has returned too. *)
Theorem watcher_returns_once_cancelled (f : FwdConn) (done : bool)
    (ops : list Op) :
  ctxDone (snd (fst (run f ops (spawned done)))) = true ->
  pending (snd (fst (run f ops (spawned done)))) = None /\
  (firstReadAll ops <> None ->
   watcher (snd (fst (run f ops (spawned done)))) = WReturned).
Proof.
  intros Hd.
  assert (Hrel : released (snd (fst (run f ops (spawned done))))).
  { apply run_done_released; [|exact Hd]. intros _. left. reflexivity. }
  split; [unfold pending; rewrite (released_tryRecv _ Hrel); reflexivity|].
  intros Hfirst. destruct Hrel as [Hw|Hw]; [|exact Hw].
  exfalso. revert Hw. apply run_leaves_ReadAll; [reflexivity|exact Hfirst].
Qed.

Lemma watcher_returns_once_cancelled_witness :
  let f := {| fwd := 7%nat; data := 3%nat; err := 1%nat; port := "80";
              pod := {| Namespace := "default"; Name := "mypod" |} |} in
  let ops := [EnvReadAll "partial" (Some (ErrOpaque "connection reset"));
              OpRead 16 (2, None); EnvCancel; OpWrite "GET /" (5, None)] in
  pending (snd (fst (run f ops (spawned false)))) = None /\
  (firstReadAll ops <> None ->
   watcher (snd (fst (run f ops (spawned false)))) = WReturned).
Proof.
  intros f ops.
  apply (watcher_returns_once_cancelled f false ops). reflexivity.
Defined.

(** The operations that neither receive from [errch] nor cancel: the deadline
    setters, and a second return of [io.ReadAll], which does not exist. *)
Definition leavesChan (op : Op) : bool :=
  match op with
  | OpSetDeadline _ _ | OpSetReadDeadline _ _ | OpSetWriteDeadline _ _
  | EnvReadAll _ _ => true
  | _ => false
  end.

(** X4: [Close] does not stop the watcher.  Closing an adapter whose watcher is
    still reading the error stream leaves it reading; if the read then ends
    with an error or with content while the context is not done, the watcher
    parks on [errch] offering an error, stays there whatever deadline is set,
    and is let go only by a later receive or by the cancellation of the
    context. *)
Theorem Close_leaves_watcher_running (f : FwdConn) (dataClose fwdClose : goerror)
    (bs : string) (e : goerror) (ops : list Op) :
  e <> None \/ bs <> "" ->
  forallb leavesChan ops = true ->
  let closed := snd (fst (Close f dataClose fwdClose (spawned false))) in
  let parked := readAll_returns bs e closed in
  closed = spawned false /\
  (exists x : error, pending parked = Some (Some x)) /\
  snd (fst (run f ops parked)) = parked /\
  watcher (cancel parked) = WReturned.
Proof.
  intros Hcase Hops closed parked. subst closed parked. simpl.
  split; [reflexivity|].
  assert (Hpark : exists x, pending (readAll_returns bs e (spawned false))
                            = Some (Some x)).
  { unfold readAll_returns, pending, tryRecv. simpl.
    destruct e as [e|]; simpl; [eexists; reflexivity|].
    destruct bs as [|c bs]; [destruct Hcase; congruence|].
    simpl. eexists. reflexivity. }
  split; [exact Hpark|]. split.
  - destruct Hpark as [x Hx].
    assert (Hw : watcher (readAll_returns bs e (spawned false)) <> WReadAll).
    { intros Hw. unfold pending, tryRecv in Hx. rewrite Hw in Hx. discriminate. }
    revert Hw. generalize (readAll_returns bs e (spawned false)). intros ch Hw.
    induction ops as [|op ops IH]; [reflexivity|].
    simpl in Hops. apply andb_prop in Hops as [Hop Hops].
    rewrite run_cons_full. simpl.
    assert (Hstep : snd (fst (step f op ch)) = ch).
    { destruct op; try discriminate Hop; try reflexivity.
      simpl. unfold readAll_returns. destruct (watcher ch); congruence. }
    rewrite Hstep. apply IH, Hops.
  - unfold cancel, readAll_returns. simpl.
    apply watchErr_done_returned, watchErr_read_parks.
Qed.

Lemma Close_leaves_watcher_running_witness :
  let f := {| fwd := 7%nat; data := 3%nat; err := 1%nat; port := "80";
              pod := {| Namespace := "default"; Name := "mypod" |} |} in
  let closed := snd (fst (Close f None None (spawned false))) in
  let parked := readAll_returns "" (Some (ErrOpaque "stream closed")) closed in
  closed = spawned false /\
  (exists x : error, pending parked = Some (Some x)) /\
  snd (fst (run f [OpSetDeadline 0 5] parked)) = parked /\
  watcher (cancel parked) = WReturned.
Proof.
  intros f.
  apply (Close_leaves_watcher_running f None None ""
           (Some (ErrOpaque "stream closed")) [OpSetDeadline 0 5]).
  - left. discriminate.
  - reflexivity.
Defined.

(** ** Close and the errors it joins *)

Lemma error_eqb_refl : forall e : error, error_eqb e e = true.
Proof.
  fix IH 1. intros [m|p e|p t|es]; simpl.
  - apply String.eqb_refl.
  - rewrite String.eqb_refl. apply IH.
  - rewrite !String.eqb_refl. reflexivity.
  - induction es as [|x es IHes]; [reflexivity|].
    rewrite IH. exact IHes.
Qed.

Lemma Is_unfold (e target : error) :
  Is e target
  = error_eqb e target ||
    match e with
    | ErrWrap _ e' => Is e' target
    | ErrJoin es => existsb (fun x => Is x target) es
    | _ => false
    end.
Proof. destruct e; reflexivity. Qed.

Lemma Is_refl (e : error) : Is e e = true.
Proof. rewrite Is_unfold, error_eqb_refl. reflexivity. Qed.

Lemma Is_wrap (prefix : string) (e x : error) :
  Is e x = true -> Is (ErrWrap prefix e) x = true.
Proof.
  intros H. rewrite Is_unfold.
  change (error_eqb (ErrWrap prefix e) x || Is e x = true).
  rewrite H. apply orb_true_r.
Qed.

Lemma Is_join (es : list error) (x : error) :
  In x es -> Is (ErrJoin es) x = true.
Proof.
  intros Hin. rewrite Is_unfold. apply orb_true_iff. right.
  apply existsb_exists. exists x. split; [exact Hin|apply Is_refl].
Qed.

Lemma Join_Some_In (errs : list goerror) (x : error) :
  In (Some x) errs ->
  exists es : list error, Join errs = Some (ErrJoin es) /\ In x es.
Proof.
  intros Hin. unfold Join.
  assert (Hx : In x (omap id errs)).
  { induction errs as [|[e|] errs IH]; simpl in *.
    - contradiction.
    - destruct Hin as [Heq|Hin]; [left; congruence|right; apply IH, Hin].
    - destruct Hin as [Heq|Hin]; [discriminate|apply IH, Hin]. }
  destruct (omap id errs) as [|y es]; [contradiction|].
  exists (y :: es). split; [reflexivity|exact Hx].
Qed.

(** X5: the error of [Close] is the join of the error taken from [errch], the
    error of closing the data stream and the error of closing the session, in
    this order and without the nil ones; so [errors.Is] finds each of them in
    the result. *)
Theorem Close_error_unwraps_to_causes (f : FwdConn)
    (dataClose fwdClose : goerror) (ch : Chan) :
  let taken := match pending ch with Some e => e | None => None end in
  fst (fst (Close f dataClose fwdClose ch)) = Join [taken; dataClose; fwdClose] /\
  forall x : error,
    In (Some x) [taken; dataClose; fwdClose] ->
    exists r : error,
      fst (fst (Close f dataClose fwdClose ch)) = Some r /\ Is r x = true.
Proof.
  intros taken.
  assert (Heq : fst (fst (Close f dataClose fwdClose ch))
                = Join [taken; dataClose; fwdClose]).
  { subst taken. unfold Close, pending.
    destruct (tryRecv ch) as [[e ch']|]; simpl;
      destruct e as [e|] || idtac; destruct dataClose, fwdClose; reflexivity. }
  split; [exact Heq|]. intros x Hin. rewrite Heq.
  destruct (Join_Some_In _ x Hin) as (es & -> & Hes).
  exists (ErrJoin es). split; [reflexivity|apply Is_join, Hes].
Qed.

Lemma Close_error_unwraps_to_causes_witness :
  let f := {| fwd := 7%nat; data := 3%nat; err := 1%nat; port := "80";
              pod := {| Namespace := "default"; Name := "mypod" |} |} in
  let ch := readAll_returns "connection refused" None (spawned false) in
  let x := ErrOpaque "session already closed" in
  exists r : error,
    fst (fst (Close f None (Some x) ch)) = Some r /\ Is r x = true.
Proof.
  intros f ch x.
  destruct (Close_error_unwraps_to_causes f None (Some x) ch) as [_ H].
  apply H. simpl. right. right. left. reflexivity.
Defined.

(** ** Deadlines over a run *)

Lemma idleTimeout_app (c : ConnId) (l1 l2 : list Event) :
  idleTimeout c (l1 ++ l2)
  = match idleTimeout c l2 with
    | Some d => Some d
    | None => idleTimeout c l1
    end.
Proof. unfold idleTimeout. rewrite omap_app. apply last_app. Qed.

Lemma step_idleTimeout (f : FwdConn) (op : Op) (ch : Chan) :
  idleTimeout (fwd f) (snd (step f op ch))
  = match op with
    | OpSetDeadline now t | OpSetReadDeadline now t
    | OpSetWriteDeadline now t => Some (Until now t)
    | _ => None
    end.
Proof.
  destruct op as [b ans|b ans|dc fc|now t|now t|now t|bs e|]; simpl;
    unfold Read, Write, Close, idleTimeout;
    try (destruct (tryRecv ch) as [[e' ch']|]; simpl; try destruct ans;
         reflexivity);
    simpl; rewrite ?Nat.eqb_refl; reflexivity.
Qed.

(** X6: the three deadline setters write one and the same timeout of the
    session: after any run of an adapter the idle timeout of its session is
    [time.Until] of the last deadline set, by whichever of the three setters,
    and reads, writes and [Close] leave it alone. *)
Theorem last_deadline_wins (f : FwdConn) (ops : list Op) (ch : Chan) :
  idleTimeout (fwd f) (snd (run f ops ch))
  = (fun d => Until (fst d) (snd d)) <$> lastDeadline ops.
Proof.
  revert ch. induction ops as [|op ops IH]; intros ch; [reflexivity|].
  rewrite run_cons, idleTimeout_app, IH, step_idleTimeout. simpl.
  destruct (lastDeadline ops) as [[now t]|]; [reflexivity|].
  destruct op; reflexivity.
Qed.

(** ** Forward: the failure paths *)

(** X7: when [Forward] fails, the error it returns is the error of the
    collaborator that failed (the dialer, or [CreateStream] for the error or
    for the data stream) under the message of that step, and the calls it has
    made are exactly those up to the failed one.  So no watcher has been
    started, no session closed and no stream removed; no stream has been
    closed unless the error stream was created, and then only that stream; a
    failed dial leaves the counter of request identifiers alone, while a
    failed [CreateStream] has used one up. *)
Theorem Forward_failure_wraps_cause (env : ForwardEnv) (pod : Pod)
    (port : string) (fw fw' : Forwarder) (log : list Event) (e : error) :
  Forward env pod port fw [] = (Err e, fw', log) ->
  ((forall fc : FwdConn, ~ In (EvGoWatchErr fc) log) /\
   (forall c : ConnId, ~ In (EvConnClose c) log) /\
   (forall (c : ConnId) (ss : list StreamId), ~ In (EvRemoveStreams c ss) log)) /\
  ((exists cause : error,
       dial env = Err cause /\
       e = ErrWrap "error dialing for stream" cause /\
       fw' = fw /\ allocated log = [] /\
       log = [EvDial (Namespace pod) (Name pod)] /\
       forall s : StreamId, ~ In (EvStreamClose s) log) \/
   (exists (cause : error) (conn : ConnId),
       dial env = Ok conn /\
       createErr env = Err cause /\
       e = ErrWrap "error creating err stream" cause /\
       reqID fw' = Int32_Add (reqID fw) 1 /\
       allocated log = [Int32_Add (reqID fw) 1] /\
       log = [EvDial (Namespace pod) (Name pod);
              EvReqIDAdd (Int32_Add (reqID fw) 1);
              EvCreateStream conn (errorHeaders port (Int32_Add (reqID fw) 1))] /\
       forall s : StreamId, ~ In (EvStreamClose s) log) \/
   (exists (cause : error) (conn : ConnId) (errorStream : StreamId),
       dial env = Ok conn /\
       createErr env = Ok errorStream /\
       createData env = Err cause /\
       e = ErrWrap "error creating data stream" cause /\
       reqID fw' = Int32_Add (reqID fw) 1 /\
       allocated log = [Int32_Add (reqID fw) 1] /\
       log = [EvDial (Namespace pod) (Name pod);
              EvReqIDAdd (Int32_Add (reqID fw) 1);
              EvCreateStream conn (errorHeaders port (Int32_Add (reqID fw) 1));
              EvStreamClose errorStream;
              EvCreateStream conn (dataHeaders port (Int32_Add (reqID fw) 1))] /\
       forall s : StreamId, In (EvStreamClose s) log -> s = errorStream)).
Proof.
  intros H.
  destruct (dial env) as [conn|c] eqn:Hd.
  - destruct (createErr env) as [es|c] eqn:He.
    + destruct (createData env) as [ds|c] eqn:Hda.
      * rewrite (Forward_succeeds _ _ _ _ _ _ _ _ Hd He Hda) in H. discriminate.
      * rewrite (Forward_data_stream_fails _ _ _ _ _ _ _ _ Hd He Hda) in H.
        injection H as <- <- <-. split.
        -- split; [|split]; [intros fc Hin|intros c0 Hin|intros c0 ss Hin];
             simpl in Hin;
             repeat (destruct Hin as [Hin|Hin]; [discriminate Hin|]);
             exact Hin.
        -- right. right. exists c, conn, es.
           split; [reflexivity|]. split; [reflexivity|]. split; [reflexivity|].
           split; [reflexivity|]. split; [reflexivity|]. split; [reflexivity|].
           split; [reflexivity|].
           intros s Hin. simpl in Hin.
           destruct Hin as [Hin|[Hin|[Hin|[Hin|[Hin|[]]]]]];
             try discriminate Hin.
           injection Hin as <-. reflexivity.
    + rewrite (Forward_error_stream_fails _ _ _ _ _ _ _ Hd He) in H.
      injection H as <- <- <-. split.
      * split; [|split]; [intros fc Hin|intros c0 Hin|intros c0 ss Hin];
          simpl in Hin;
          repeat (destruct Hin as [Hin|Hin]; [discriminate Hin|]);
          exact Hin.
      * right. left. exists c, conn.
        split; [reflexivity|]. split; [reflexivity|]. split; [reflexivity|].
        split; [reflexivity|]. split; [reflexivity|]. split; [reflexivity|].
        intros s Hin. simpl in Hin.
        repeat (destruct Hin as [Hin|Hin]; [discriminate Hin|]). exact Hin.
  - rewrite (Forward_dial_fails _ _ _ _ _ _ Hd) in H.
    injection H as <- <- <-. split.
    + split; [|split]; [intros fc Hin|intros c0 Hin|intros c0 ss Hin];
        simpl in Hin;
        repeat (destruct Hin as [Hin|Hin]; [discriminate Hin|]);
        exact Hin.
    + left. exists c.
      split; [reflexivity|]. split; [reflexivity|]. split; [reflexivity|].
      split; [reflexivity|]. split; [reflexivity|].
      intros s Hin. simpl in Hin.
      repeat (destruct Hin as [Hin|Hin]; [discriminate Hin|]). exact Hin.
Qed.

Lemma Forward_failure_wraps_cause_witness :
  let env := {| dial := Ok 7%nat; createErr := Err (ErrOpaque "stream refused");
                createData := Ok 3%nat |} in
  let pod := {| Namespace := "default"; Name := "mypod" |} in
  exists (fw' : Forwarder) (log : list Event),
    Forward env pod "80" NewForwarder []
    = (Err (ErrWrap "error creating err stream" (ErrOpaque "stream refused")),
       fw', log) /\
    (forall fc : FwdConn, ~ In (EvGoWatchErr fc) log) /\
    (forall c : ConnId, ~ In (EvConnClose c) log) /\
    (forall (c : ConnId) (ss : list StreamId), ~ In (EvRemoveStreams c ss) log).
Proof.
  intros env pod.
  exists {| reqID := 1 |},
    ([] ++ [EvDial (Namespace pod) (Name pod)] ++ [EvReqIDAdd 1]
        ++ [EvCreateStream 7 (errorHeaders "80" 1)]).
  assert (H : Forward env pod "80" NewForwarder []
              = (Err (ErrWrap "error creating err stream"
                        (ErrOpaque "stream refused")),
                 {| reqID := 1 |},
                 [] ++ [EvDial (Namespace pod) (Name pod)] ++ [EvReqIDAdd 1]
                    ++ [EvCreateStream 7 (errorHeaders "80" 1)]))
    by reflexivity.
  split; [exact H|].
  exact (proj1 (Forward_failure_wraps_cause env pod "80" NewForwarder _ _ _ H)).
Defined.

(** ** Request identifiers on the wire *)












(** ** Addresses *)

(** [c] occurs in [s]. *)
Fixpoint contains (c : ascii) (s : string) : bool :=
  match s with
  | EmptyString => false
  | String x s' => Ascii.eqb x c || contains c s'
  end.

Lemma append_inv_head (s a b : string) : (s ++ a = s ++ b)%string -> a = b.
Proof.
  induction s as [|c s IH]; simpl; intros H; [exact H|].
  injection H as H. apply IH, H.
Qed.

(** Two strings cut at the first occurrence of [c]. *)
Lemma append_split_at (c : ascii) (s1 s2 r1 r2 : string) :
  contains c s1 = false -> contains c s2 = false ->
  (s1 ++ String c r1 = s2 ++ String c r2)%string ->
  s1 = s2 /\ r1 = r2.
Proof.
  revert s2. induction s1 as [|x s1 IH]; intros [|y s2]; simpl;
    intros H1 H2 Heq.
  - injection Heq as Heq. split; [reflexivity|exact Heq].
  - injection Heq as Hc _. subst y. rewrite Ascii.eqb_refl in H2. discriminate.
  - injection Heq as Hc _. subst x. rewrite Ascii.eqb_refl in H1. discriminate.
  - injection Heq as Hxy Heq. subst y.
    apply orb_false_iff in H1 as [_ H1]. apply orb_false_iff in H2 as [_ H2].
    destruct (IH s2 H1 H2 Heq) as [-> ->]. split; reflexivity.
Qed.

(** X9: the remote address names the pod and the port: for namespaces without
    a slash and pod names without a colon (as Kubernetes names are), two
    adapters with the same [RemoteAddr] string have the same namespace, pod
    name and port.  The local address names the port and nothing else, and
    both addresses are on the network "port-forward". *)
Theorem addresses_identify (f g : FwdConn) :
  contains "/" (Namespace (pod f)) = false ->
  contains "/" (Namespace (pod g)) = false ->
  contains ":" (Name (pod f)) = false ->
  contains ":" (Name (pod g)) = false ->
  (fwdAddr_String (RemoteAddr f) = fwdAddr_String (RemoteAddr g) <->
   Namespace (pod f) = Namespace (pod g) /\ Name (pod f) = Name (pod g) /\
   port f = port g) /\
  (fwdAddr_String (LocalAddr f) = fwdAddr_String (LocalAddr g) <->
   port f = port g) /\
  fwdAddr_Network (RemoteAddr f) = "port-forward" /\
  fwdAddr_Network (LocalAddr f) = "port-forward".
Proof.
  intros Hnf Hng Hmf Hmg. split; [|split; [|split; reflexivity]].
  - unfold fwdAddr_String, RemoteAddr. simpl. split.
    + intros H. injection H as H.
      apply (append_split_at "/" _ _ _ _ Hnf Hng) in H as [Hns H].
      apply (append_split_at ":" _ _ _ _ Hmf Hmg) in H as [Hname Hport].
      repeat split; assumption.
    + intros (-> & -> & ->). reflexivity.
  - unfold fwdAddr_String, LocalAddr. simpl. split.
    + intros H. apply (append_inv_head networkName) in H.
      injection H as H. exact H.
    + intros ->. reflexivity.
Qed.

Lemma addresses_identify_witness :
  let f := {| fwd := 7%nat; data := 3%nat; err := 1%nat; port := "80";
              pod := {| Namespace := "default"; Name := "mypod" |} |} in
  let g := {| fwd := 9%nat; data := 5%nat; err := 4%nat; port := "80";
              pod := {| Namespace := "default"; Name := "mypod" |} |} in
  fwdAddr_String (RemoteAddr f) = "k8s/default/mypod:80" /\
  (fwdAddr_String (RemoteAddr f) = fwdAddr_String (RemoteAddr g) <->
   Namespace (pod f) = Namespace (pod g) /\ Name (pod f) = Name (pod g) /\
   port f = port g).
Proof.
  intros f g. split; [reflexivity|].
  apply (addresses_identify f g); reflexivity.
Defined.

(** ** NewForwarder and the package-level Forward *)

(** X10: when the rest config is refused by [kubernetes.NewForConfig],
    [NewForwarder] returns an error in which [errors.Is] finds both
    [ErrRestConfigInvalid] and the cause, and so does the package-level
    [Forward] under its own message, without having dialled; when only
    [spdy.RoundTripperFor] fails the cause is wrapped once; and a forwarder
    that is returned starts with the counter at zero. *)
Theorem NewForwarder_errors (cfg : ConfigEnv) (env : ForwardEnv) (pod : Pod)
    (port : string) :
  (forall cause : error,
      newForConfig cfg = Some cause ->
      exists e : error,
        k8sport.NewForwarder cfg = Err e /\
        Is e ErrRestConfigInvalid = true /\ Is e cause = true /\
        k8sport.Forward cfg env pod port
        = (Err (ErrWrap "error creating forwarder" e), []) /\
        Is (ErrWrap "error creating forwarder" e) ErrRestConfigInvalid = true /\
        Is (ErrWrap "error creating forwarder" e) cause = true) /\
  (forall cause : error,
      newForConfig cfg = None -> roundTripperFor cfg = Some cause ->
      k8sport.NewForwarder cfg
      = Err (ErrWrap "error creating spdy roundtripper" cause) /\
      k8sport.Forward cfg env pod port
      = (Err (ErrWrap "error creating forwarder"
                (ErrWrap "error creating spdy roundtripper" cause)), [])) /\
  (forall fw : Forwarder,
      k8sport.NewForwarder cfg = Ok fw <->
      newForConfig cfg = None /\ roundTripperFor cfg = None /\
      fw = {| reqID := 0 |}).
Proof.
  unfold k8sport.Forward, k8sport.NewForwarder. split; [|split].
  - intros cause ->. exists (Errorf_w_w ErrRestConfigInvalid cause).
    assert (H1 : Is (Errorf_w_w ErrRestConfigInvalid cause) ErrRestConfigInvalid
                 = true) by (apply Is_join; left; reflexivity).
    assert (H2 : Is (Errorf_w_w ErrRestConfigInvalid cause) cause = true)
      by (apply Is_join; right; left; reflexivity).
    repeat split; try assumption; apply Is_wrap; assumption.
  - intros cause -> ->. split; reflexivity.
  - intros fw. destruct (newForConfig cfg), (roundTripperFor cfg); split;
      try discriminate; try (intros (H & _); discriminate H);
      try (intros (_ & H & _); discriminate H).
    + intros H. injection H as <-. repeat split.
    + intros (_ & _ & ->). reflexivity.
Qed.

Lemma NewForwarder_errors_witness :
  let cfg := {| newForConfig := Some (ErrOpaque "no host");
                roundTripperFor := None |} in
  exists e : error,
    k8sport.NewForwarder cfg = Err e /\
    Is e ErrRestConfigInvalid = true /\ Is e (ErrOpaque "no host") = true.
Proof.
  intros cfg.
  destruct (NewForwarder_errors cfg
              {| dial := Ok 7%nat; createErr := Ok 1%nat; createData := Ok 3%nat |}
              {| Namespace := "default"; Name := "mypod" |} "80") as [H _].
  destruct (H (ErrOpaque "no host") eq_refl) as (e & He & H1 & H2 & _).
  exists e. repeat split; assumption.
Defined.

Lemma package_Forward_ok_config (cfg : ConfigEnv) (env : ForwardEnv)
    (pod : Pod) (port : string) :
  newForConfig cfg = None -> roundTripperFor cfg = None ->
  k8sport.Forward cfg env pod port
  = (match fst (fst (Forward env pod port {| reqID := 0 |} [])) with
     | Err e => Err (ErrWrap "error forwarding" e)
     | Ok conn => Ok conn
     end,
     snd (Forward env pod port {| reqID := 0 |} [])).
Proof.
  intros H1 H2. unfold k8sport.Forward, k8sport.NewForwarder. rewrite H1, H2.
  destruct (Forward env pod port {| reqID := 0 |} []) as [[[fc|e] fw'] log];
    reflexivity.
Qed.

Lemma package_Forward_bad_config (cfg : ConfigEnv) (env : ForwardEnv)
    (pod : Pod) (port : string) :
  newForConfig cfg <> None \/ roundTripperFor cfg <> None ->
  exists e : error, k8sport.Forward cfg env pod port = (Err e, []).
Proof.
  unfold k8sport.Forward, k8sport.NewForwarder.
  destruct (newForConfig cfg) as [e1|]; [eexists; reflexivity|].
  destruct (roundTripperFor cfg) as [e2|]; [eexists; reflexivity|].
  intros [H|H]; contradiction.
Qed.

Lemma first_request_id : Int32_Add (reqID {| reqID := 0 |}) 1 = 1.
Proof. reflexivity. Qed.

Lemma Itoa_one : Itoa 1 = "1".
Proof. reflexivity. Qed.

(** The result and the log of [Forward] on a new forwarder, by the step that
    fails. *)
Lemma Forward_new_forwarder (env : ForwardEnv) (pod : Pod) (port : string) :
  let r := Forward env pod port {| reqID := 0 |} [] in
  let dialed := [EvDial (Namespace pod) (Name pod)] in
  match dial env with
  | Err c =>
      fst (fst r) = Err (ErrWrap "error dialing for stream" c) /\
      snd r = dialed
  | Ok conn =>
      let created :=
        dialed ++ [EvReqIDAdd 1; EvCreateStream conn (errorHeaders port 1)] in
      match createErr env with
      | Err c =>
          fst (fst r) = Err (ErrWrap "error creating err stream" c) /\
          snd r = created
      | Ok es =>
          let tried :=
            created ++ [EvStreamClose es;
                        EvCreateStream conn (dataHeaders port 1)] in
          match createData env with
          | Err c =>
              fst (fst r) = Err (ErrWrap "error creating data stream" c) /\
              snd r = tried
          | Ok ds =>
              let fc := {| fwd := conn; port := port; err := es; data := ds;
                           pod := pod |} in
              fst (fst r) = Ok fc /\ snd r = tried ++ [EvGoWatchErr fc]
          end
      end
  end.
Proof.
  intros r dialed. subst r dialed.
  destruct (dial env) as [conn|c] eqn:Hd;
    [|rewrite (Forward_dial_fails _ _ _ _ _ _ Hd); split; reflexivity].
  destruct (createErr env) as [es|c] eqn:He;
    [|rewrite (Forward_error_stream_fails _ _ _ _ _ _ _ Hd He);
      rewrite first_request_id; split; reflexivity].
  destruct (createData env) as [ds|c] eqn:Hda.
  - rewrite (Forward_succeeds _ _ _ _ _ _ _ _ Hd He Hda).
    rewrite first_request_id. split; reflexivity.
  - rewrite (Forward_data_stream_fails _ _ _ _ _ _ _ _ Hd He Hda).
    rewrite first_request_id. split; reflexivity.
Qed.

(** X11: the package-level [Forward] makes a new forwarder for every call, so
    every connection it opens has request identifier 1: each [CreateStream]
    it makes carries the [requestID] header "1", and the one identifier it
    allocates, if the dial succeeds, is 1. *)
Theorem package_Forward_request_id_is_one (cfg : ConfigEnv) (env : ForwardEnv)
    (pod : Pod) (port : string) :
  (forall (c : ConnId) (h : Header),
      In (EvCreateStream c h) (snd (k8sport.Forward cfg env pod port)) ->
      Header_Get h PortForwardRequestIDHeader = "1") /\
  (allocated (snd (k8sport.Forward cfg env pod port)) = [] \/
   allocated (snd (k8sport.Forward cfg env pod port)) = [1]) /\
  (forall fc : FwdConn,
      fst (k8sport.Forward cfg env pod port) = Ok fc ->
      allocated (snd (k8sport.Forward cfg env pod port)) = [1]).
Proof.
  destruct (errorHeaders_carry port 1) as (_ & _ & Herr).
  destruct (dataHeaders_carry port 1) as (_ & _ & Hdata).
  rewrite Itoa_one in Herr, Hdata.
  assert (Hbad : newForConfig cfg <> None \/ roundTripperFor cfg <> None ->
            (forall (c : ConnId) (h : Header),
                In (EvCreateStream c h) (snd (k8sport.Forward cfg env pod port)) ->
                Header_Get h PortForwardRequestIDHeader = "1") /\
            (allocated (snd (k8sport.Forward cfg env pod port)) = [] \/
             allocated (snd (k8sport.Forward cfg env pod port)) = [1]) /\
            (forall fc : FwdConn,
                fst (k8sport.Forward cfg env pod port) = Ok fc ->
                allocated (snd (k8sport.Forward cfg env pod port)) = [1])).
  { intros Hcfg.
    destruct (package_Forward_bad_config cfg env pod port Hcfg) as [e ->].
    split; [intros c h []|]. split; [left; reflexivity|].
    intros fc H. discriminate H. }
  destruct (newForConfig cfg) as [e1|] eqn:H1;
    [apply Hbad; left; discriminate|].
  destruct (roundTripperFor cfg) as [e2|] eqn:H2;
    [apply Hbad; right; discriminate|].
  clear Hbad. rewrite (package_Forward_ok_config cfg env pod port H1 H2).
  pose proof (Forward_new_forwarder env pod port) as Hr. cbv zeta in Hr.
  destruct (dial env) as [conn|c].
  - destruct (createErr env) as [es|c].
    + destruct (createData env) as [ds|c]; destruct Hr as [-> ->]; simpl.
      * split; [|split; [right; reflexivity|reflexivity]].
        intros c0 h [H|[H|[H|[H|[H|[H|[]]]]]]]; try discriminate H;
          injection H as _ <-; [exact Herr|exact Hdata].
      * split; [|split; [right; reflexivity|reflexivity]].
        intros c0 h [H|[H|[H|[H|[H|[]]]]]]; try discriminate H;
          injection H as _ <-; [exact Herr|exact Hdata].
    + destruct Hr as [-> ->]; simpl.
      split; [|split; [right; reflexivity|reflexivity]].
      intros c0 h [H|[H|[H|[]]]]; try discriminate H.
      injection H as _ <-. exact Herr.
  - destruct Hr as [-> ->]; simpl.
    split; [|split; [left; reflexivity|intros fc H; discriminate H]].
    intros c0 h [H|[]]. discriminate H.
Qed.

Lemma callsOf_Called (log : list Event) : callsOf (map Called log) = log.
Proof.
  induction log as [|ev log IH]; [reflexivity|].
  unfold callsOf in *. simpl. f_equal. exact IH.
Qed.

Lemma callsOf_span (tracer name : string) (log : list Event) :
  callsOf ([SpanStart tracer name] ++ map Called log ++ [SpanEnd]) = log.
Proof.
  unfold callsOf. rewrite !omap_app.
  change (omap _ (map Called log)) with (callsOf (map Called log)).
  rewrite callsOf_Called. simpl. apply app_nil_r.
Qed.

Lemma errorHeaders_one (port : string) :
  Header_Set (Header_Set (Header_Set ∅ StreamType StreamTypeError)
                PortHeader port) PortForwardRequestIDHeader "1"
  = errorHeaders port 1.
Proof. reflexivity. Qed.

(** The first [Forward], by the step that fails. *)
Lemma v0_Forward_body (cfg : ConfigEnv) (env : ForwardEnv) (pod : Pod)
    (port : string) :
  newForConfig cfg = None -> roundTripperFor cfg = None ->
  let r := v0.Forward cfg env pod port in
  let dialed := [EvDial (Namespace pod) (Name pod)] in
  match dial env with
  | Err c =>
      fst r = Err (ErrWrap "error dialing for stream" c) /\
      callsOf (snd r) = dialed
  | Ok conn =>
      let created := dialed ++ [EvCreateStream conn (errorHeaders port 1)] in
      match createErr env with
      | Err c =>
          fst r = Err (ErrWrap "error creating err stream" c) /\
          callsOf (snd r) = created
      | Ok es =>
          let tried :=
            created ++ [EvStreamClose es;
                        EvCreateStream conn (dataHeaders port 1)] in
          match createData env with
          | Err c =>
              fst r = Err (ErrWrap "error creating data stream" c) /\
              callsOf (snd r) = tried
          | Ok ds =>
              let fc := {| fwd := conn; port := port; err := es; data := ds;
                           pod := pod |} in
              fst r = Ok fc /\ callsOf (snd r) = tried ++ [EvGoWatchErr fc]
          end
      end
  end.
Proof.
  intros H1 H2 r dialed. subst r dialed.
  unfold v0.Forward. cbv zeta. cbn [fst snd].
  rewrite callsOf_span, H1, H2, errorHeaders_one.
  fold (dataHeaders port 1).
  destruct (dial env) as [conn|c]; [|split; reflexivity].
  destruct (createErr env) as [es|c]; [|split; reflexivity].
  destruct (createData env) as [ds|c]; split; reflexivity.
Qed.

(** X12: the package-level [Forward] is backward compatible with the function
    it replaces: for the same answers of the rest config, the dialer and the
    session, both make the same calls on the collaborators with the same
    headers, in the same order, and one returns an adapter exactly when the
    other does, the same one.  (Their errors differ in the messages wrapped
    around the cause, and the old function runs in a span.) *)
Theorem package_Forward_matches_v0 (cfg : ConfigEnv) (env : ForwardEnv)
    (pod : Pod) (port : string) :
  callsOf (snd (v0.Forward cfg env pod port))
  = withoutReqID (snd (k8sport.Forward cfg env pod port)) /\
  (forall fc : FwdConn,
      fst (k8sport.Forward cfg env pod port) = Ok fc <->
      fst (v0.Forward cfg env pod port) = Ok fc) /\
  ((exists e : error, fst (k8sport.Forward cfg env pod port) = Err e) <->
   (exists e : error, fst (v0.Forward cfg env pod port) = Err e)).
Proof.
  destruct (newForConfig cfg) as [e1|] eqn:H1.
  { destruct (package_Forward_bad_config cfg env pod port) as [e ->];
      [left; congruence|].
    unfold v0.Forward. cbv zeta. cbn [fst snd]. rewrite callsOf_span, H1. simpl.
    split; [reflexivity|]. split; [split; discriminate|split; eauto]. }
  destruct (roundTripperFor cfg) as [e2|] eqn:H2.
  { destruct (package_Forward_bad_config cfg env pod port) as [e ->];
      [right; congruence|].
    unfold v0.Forward. cbv zeta. cbn [fst snd].
    rewrite callsOf_span, H1, H2. simpl.
    split; [reflexivity|]. split; [split; discriminate|split; eauto]. }
  rewrite (package_Forward_ok_config cfg env pod port H1 H2).
  pose proof (Forward_new_forwarder env pod port) as Hr. cbv zeta in Hr.
  pose proof (v0_Forward_body cfg env pod port H1 H2) as Ho. cbv zeta in Ho.
  destruct (dial env) as [conn|c].
  - destruct (createErr env) as [es|c].
    + destruct (createData env) as [ds|c];
        destruct Hr as [-> ->]; destruct Ho as [-> ->]; simpl.
      * split; [reflexivity|]. split; [reflexivity|].
        split; intros [e H]; discriminate H.
      * split; [reflexivity|]. split; [split; discriminate|split; eauto].
    + destruct Hr as [-> ->]; destruct Ho as [-> ->]; simpl.
      split; [reflexivity|]. split; [split; discriminate|split; eauto].
  - destruct Hr as [-> ->]; destruct Ho as [-> ->]; simpl.
    split; [reflexivity|]. split; [split; discriminate|split; eauto].
Qed.

(** ** waitForPodReady *)

(** The pod is running and has container statuses, all of them ready. *)
Definition podReady (pod : PodStatus) : Prop :=
  Phase pod = PodRunning /\ ContainerStatuses pod <> [] /\
  Forall (fun s => Ready s = true) (ContainerStatuses pod).

(** A turn after which the loop goes on: the pod was fetched, is neither ready
    nor in a terminal phase, the wait has not exceeded [maxWait], and the
    timer fired before the context was done. *)
Definition keepsPolling (p : Poll) : Prop :=
  exists pod : PodStatus,
    get p = Ok pod /\ ~ podReady pod /\
    Phase pod <> PodFailed /\ Phase pod <> PodSucceeded /\
    since p <= maxWait /\ ctxErr p = None.

Lemma forallb_Ready (statuses : list ContainerStatus) :
  forallb Ready statuses = true <-> Forall (fun s => Ready s = true) statuses.
Proof.
  induction statuses as [|s statuses IH]; simpl.
  - split; [constructor|reflexivity].
  - rewrite andb_true_iff, IH. split.
    + intros [H1 H2]. constructor; assumption.
    + intros H. inversion H. split; assumption.
Qed.

Lemma containersReady_spec (statuses : list ContainerStatus) :
  containersReady statuses = true <->
  statuses <> [] /\ Forall (fun s => Ready s = true) statuses.
Proof.
  unfold containersReady. rewrite <- forallb_Ready.
  destruct statuses as [|s statuses].
  - simpl. split; [discriminate|intros [H _]; contradiction].
  - cbn [length Nat.eqb].
    destruct (forallb Ready (s :: statuses)); split; try discriminate; auto.
    intros [_ H]. exact H.
Qed.

Lemma podReady_spec (pod : PodStatus) :
  String.eqb (Phase pod) PodRunning && containersReady (ContainerStatuses pod)
  = true <-> podReady pod.
Proof.
  unfold podReady.
  rewrite andb_true_iff, String.eqb_eq, containersReady_spec. reflexivity.
Qed.

(** One turn of the loop: the turn decides, or the loop goes on with the
    turns that are left. *)
Lemma waitForPodReady_turn (ns podName : string) (p : Poll) (polls : list Poll) :
  (keepsPolling p /\
   waitForPodReady ns podName (p :: polls) = waitForPodReady ns podName polls) \/
  (~ keepsPolling p /\
   exists r : goerror,
     waitForPodReady ns podName (p :: polls) = Some r /\
     (r = None <-> exists pod : PodStatus, get p = Ok pod /\ podReady pod)).
Proof.
  assert (Hno : forall pod, get p = Ok pod -> podReady pod -> ~ keepsPolling p).
  { intros pod Hget Hready (pod' & Hget' & Hnot & _).
    rewrite Hget in Hget'. injection Hget' as <-. contradiction. }
  simpl. destruct (get p) as [pod|e] eqn:Hget.
  - destruct (String.eqb (Phase pod) PodRunning
              && containersReady (ContainerStatuses pod)) eqn:Hready.
    + apply podReady_spec in Hready. right. split; [eapply Hno; eauto|].
      exists None. split; [reflexivity|]. split; [eauto|reflexivity].
    + assert (Hnot : ~ podReady pod).
      { rewrite <- podReady_spec, Hready. discriminate. }
      assert (Hnone : forall r : error,
                Some r = None <->
                exists pod' : PodStatus, Ok pod = Ok pod' /\ podReady pod').
      { intros r. split; [discriminate|].
        intros (pod' & Heq & Hr). injection Heq as <-. contradiction. }
      destruct (String.eqb (Phase pod) PodFailed
                || String.eqb (Phase pod) PodSucceeded) eqn:Hterm.
      * right. split; [|eexists; split; [reflexivity|apply Hnone]].
        intros (pod' & Hget' & _ & Hf & Hs & _).
        rewrite Hget in Hget'. injection Hget' as <-.
        apply orb_true_iff in Hterm as [H|H]; apply String.eqb_eq in H;
          contradiction.
      * apply orb_false_iff in Hterm as [Hf Hs].
        apply String.eqb_neq in Hf, Hs.
        destruct (Z.ltb_spec maxWait (since p)) as [Hlate|Hintime].
        -- right. split; [|eexists; split; [reflexivity|apply Hnone]].
           intros (pod' & _ & _ & _ & _ & Hle & _). lia.
        -- destruct (ctxErr p) as [e|] eqn:Hctx.
           ++ right. split; [|eexists; split; [reflexivity|apply Hnone]].
              intros (pod' & _ & _ & _ & _ & _ & Hc).
              rewrite Hctx in Hc. discriminate Hc.
           ++ left. split; [|reflexivity].
              exists pod. repeat split; assumption.
  - right. split.
    + intros (pod & Hget' & _). rewrite Hget in Hget'. discriminate Hget'.
    + eexists. split; [reflexivity|]. split; [discriminate|].
      intros (pod & Hget' & _). discriminate Hget'.
Qed.

(** X13: [waitForPodReady] returns nil exactly when some turn of the loop
    sees the pod running with at least one container status and all of them
    ready, and every turn before it let the loop go on (pod fetched, not
    ready, not failed or succeeded, no more than two minutes waited, context
    not done).  A ready pod is accepted however long the wait has been, since
    the timeout is checked after readiness; and the loop is still polling
    exactly when every turn so far let it go on. *)
Theorem waitForPodReady_nil_iff (ns podName : string) (polls : list Poll) :
  (waitForPodReady ns podName polls = Some None <->
   exists (before : list Poll) (p : Poll) (rest : list Poll) (pod : PodStatus),
     polls = before ++ p :: rest /\ Forall keepsPolling before /\
     get p = Ok pod /\ podReady pod) /\
  (waitForPodReady ns podName polls = None <-> Forall keepsPolling polls).
Proof.
  induction polls as [|p polls [IHnil IHnone]].
  - split; split.
    + discriminate.
    + intros (before & p & rest & pod & Heq & _). destruct before; discriminate.
    + constructor.
    + reflexivity.
  - destruct (waitForPodReady_turn ns podName p polls)
      as [[Hkeep ->]|(Hstop & r & -> & Hr)].
    + split.
      * rewrite IHnil. split.
        -- intros (before & q & rest & pod & -> & Hb & Hget & Hready).
           exists (p :: before), q, rest, pod.
           split; [reflexivity|]. split; [constructor; assumption|].
           split; assumption.
        -- intros (before & q & rest & pod & Heq & Hb & Hget & Hready).
           destruct before as [|b before].
           ++ injection Heq as <- <-. exfalso.
              destruct Hkeep as (pod' & Hget' & Hnot & _).
              rewrite Hget in Hget'. injection Hget' as <-. contradiction.
           ++ injection Heq as <- ->. inversion Hb; subst.
              exists before, q, rest, pod.
              split; [reflexivity|]. split; [assumption|]. split; assumption.
      * rewrite IHnone. split.
        -- intros H. constructor; assumption.
        -- intros H. inversion H. assumption.
    + split.
      * split.
        -- intros H. injection H as ->.
           destruct Hr as [Hr _]. destruct (Hr eq_refl) as (pod & Hget & Hready).
           exists [], p, polls, pod.
           split; [reflexivity|]. split; [constructor|]. split; assumption.
        -- intros (before & q & rest & pod & Heq & Hb & Hget & Hready).
           destruct before as [|b before].
           ++ injection Heq as <- <-. f_equal. apply Hr. eauto.
           ++ injection Heq as <- ->. inversion Hb; subst. contradiction.
      * split; [discriminate|]. intros H. inversion H. contradiction.
Qed.

Lemma waitForPodReady_nil_iff_witness :
  let pending := {| get := Ok {| Phase := "Pending"; ContainerStatuses := [] |};
                    since := 1 * Second; ctxErr := None |} in
  let late := {| get := Ok {| Phase := "Running";
                              ContainerStatuses := [{| Ready := true |}] |};
                 since := 3 * (60 * Second);
                 ctxErr := Some (ErrOpaque "context canceled") |} in
  waitForPodReady "default" "httpbin-test" [pending; late] = Some None.
Proof.
  intros pending late.
  apply (waitForPodReady_nil_iff "default" "httpbin-test" [pending; late]).
  exists [pending], late, [],
    {| Phase := "Running"; ContainerStatuses := [{| Ready := true |}] |}.
  split; [reflexivity|]. split; [|split; [reflexivity|]].
  - constructor; [|constructor].
    exists {| Phase := "Pending"; ContainerStatuses := [] |}.
    split; [reflexivity|]. split; [intros (H & _); discriminate H|].
    split; [discriminate|]. split; [discriminate|].
    split; [vm_compute; discriminate|reflexivity].
  - split; [reflexivity|]. split; [discriminate|]. repeat constructor.
Defined.

Lemma package_Forward_request_id_is_one_witness :
  let cfg := {| newForConfig := None; roundTripperFor := None |} in
  let env := {| dial := Ok 7%nat; createErr := Ok 1%nat;
                createData := Ok 3%nat |} in
  let pod := {| Namespace := "default"; Name := "mypod" |} in
  let fc := {| fwd := 7%nat; port := "80"; err := 1%nat; data := 3%nat;
               pod := pod |} in
  fst (k8sport.Forward cfg env pod "80") = Ok fc /\
  allocated (snd (k8sport.Forward cfg env pod "80")) = [1].
Proof.
  intros cfg env pod fc. split; [reflexivity|].
  destruct (package_Forward_request_id_is_one cfg env pod "80") as (_ & _ & H).
  apply (H fc). reflexivity.
Defined.
